(** * Music evolver: chord/scale resolver, melody walk and composition driver

    Shallow embedding of [music_evolver_streamlit_app.py] (the generative
    core: [chord_to_notes], [emotion_tempo], [evolve_melody], [make_scale],
    [generate_music]) together with the properties of its specification.

    Conventions of the embedding:
    - Python [int] is [Z]; Python [str] is [string]; a [dict] with string
      keys is a [gmap string _]; a [list] is a [list].
    - An exception is a value [Raise e] of [result]; the process-wide numpy
      random state is threaded explicitly through the monad [M].
    - A Python [float] is an IEEE 754 binary64 number: a primitive [float],
      with the same round-to-nearest-even [+], [-] and [*]; a decimal literal
      such as [0.9] is, as in Python, the nearest binary64 number. *)

From Stdlib Require Import ZArith Ascii String List Sorted Lia.
From Stdlib Require Import PrimFloat FloatOps.
From Stdlib Require Uint63.
From stdpp Require Import base option list gmap strings sorting.

Set Warnings "-inexact-float".

Local Open Scope Z_scope.

(** ** Exceptions and results *)

Inductive exn : Type :=
| ValueError
| IndexError.

Inductive result (A : Type) : Type :=
| Ok (a : A)
| Raise (e : exn).
Arguments Ok {A} a.
Arguments Raise {A} e.

Definition result_bind {A B} (r : result A) (k : A -> result B) : result B :=
  match r with
  | Ok a => k a
  | Raise e => Raise e
  end.

(** [raises r]: the call ends with an exception reported to the caller. *)
Definition raises {A} (r : result A) : Prop := exists e, r = Raise e.

(** ** The process-wide random source

    [np.random] is a global generator.  Its state is a tape of raw draws
    and a read position; which tape the process holds is arbitrary, so a
    statement quantified over every [RNG] covers every outcome of the
    generator. *)

Record RNG : Type := mkRNG { tape : nat -> nat; pos : nat }.

Definition draw (g : RNG) : nat := tape g (pos g).
Definition advance (g : RNG) : RNG := mkRNG (tape g) (S (pos g)).

(** State-and-exception monad of the code that touches [np.random]. *)
Definition M (A : Type) : Type := RNG -> result (A * RNG).

Definition ret {A} (a : A) : M A := fun g => Ok (a, g).

Definition bind {A B} (m : M A) (k : A -> M B) : M B :=
  fun g =>
    match m g with
    | Ok (a, g') => k a g'
    | Raise e => Raise e
    end.

Definition lift {A} (r : result A) : M A :=
  fun g =>
    match r with
    | Ok a => Ok (a, g)
    | Raise e => Raise e
    end.

#[global] Instance M_ret : MRet M := @ret.
#[global] Instance M_bind : MBind M := fun A B k m => bind m k.

(** [np.random.choice(a)] on a Python list: [ValueError] on an empty list,
    otherwise one element of [a], picked by the next raw draw. *)
Definition random_choice {A} (a : list A) : M A :=
  fun g =>
    match a !! (draw g mod length a)%nat with
    | Some x => Ok (x, advance g)
    | None => Raise ValueError
    end.

(** ** Python list primitives *)

(** [l[i]] with Python's negative indices; [IndexError] out of range. *)
Definition py_getitem {A} (l : list A) (i : Z) : result A :=
  let n := Z.of_nat (length l) in
  let j := if i <? 0 then n + i else i in
  if (0 <=? j) && (j <? n) then
    match l !! Z.to_nat j with
    | Some x => Ok x
    | None => Raise IndexError
    end
  else Raise IndexError.

(** [l.index(x)]: position of the first occurrence ([None] stands for the
    [ValueError] of an absent element; the code guards the call with [in]). *)
Fixpoint py_index (x : Z) (l : list Z) : option nat :=
  match l with
  | [] => None
  | y :: l' => if bool_decide (y = x) then Some O else S <$> py_index x l'
  end.

(** [range(n)] runs [max n 0] times. *)
Definition range_len (n : Z) : nat := Z.to_nat n.

(** ** Constant tables *)

Definition GENRE_PROGRESSIONS : gmap string (list (list string)) :=
  list_to_map
    [ ("Pop", [["I"; "V"; "vi"; "IV"]; ["I"; "vi"; "IV"; "V"]]);
      ("Jazz", [["ii"; "V"; "I"; "vi"]]);
      ("Rock", [["I"; "IV"; "V"; "I"]; ["I"; "bVII"; "IV"; "I"]]);
      ("Classical", [["I"; "IV"; "V"; "I"]; ["I"; "V"; "vi"; "iii"; "IV"; "I"]]) ].

Definition KEYS : list string :=
  ["C"; "C#"; "D"; "D#"; "E"; "F"; "F#"; "G"; "G#"; "A"; "A#"; "B"].
Definition MODES : list string := ["Major"; "Minor"].
Definition EMOTIONS : list string := ["Happy"; "Sad"; "Mysterious"; "Excited"].

(** ** [pretty_midi.note_name_to_number] *)

Module PrettyMidi.

(** Semitone of a note letter, [pitch_map] after [upper()]. *)
Definition pitch_map (c : ascii) : option Z :=
  match c with
  | "C" | "c" => Some 0
  | "D" | "d" => Some 2
  | "E" | "e" => Some 4
  | "F" | "f" => Some 5
  | "G" | "g" => Some 7
  | "A" | "a" => Some 9
  | "B" | "b" => Some 11
  | _ => None
  end%char.

(** Accidentals, [acc_map]. *)
Definition acc_map (c : ascii) : option Z :=
  match c with
  | "#" => Some 1
  | "b" | "!" => Some (-1)
  | _ => None
  end%char.

Definition digit (c : ascii) : option Z :=
  let n := Z.of_N (N_of_ascii c) in
  if (48 <=? n) && (n <=? 57) then Some (n - 48) else None.

(** Decimal digits up to the end of the string (or up to one final line
    feed, which [$] lets through); at least one digit is needed. *)
Fixpoint digits (acc : Z) (seen : bool) (s : string) : option Z :=
  match s with
  | EmptyString => if seen then Some acc else None
  | String c s' =>
      match digit c with
      | Some d => digits (10 * acc + d) true s'
      | None =>
          if seen && bool_decide (c = "010"%char) && bool_decide (s' = EmptyString)
          then Some acc else None
      end
  end.

(** Octave group [[+-]?\d+]. *)
Definition octave (s : string) : option Z :=
  match s with
  | String "+" s' => digits 0 false s'
  | String "-" s' => Z.opp <$> digits 0 false s'
  | _ => digits 0 false s
  end.

(** Modelled from the spec: [pitch_class_to_number(key, octave)] is the
    function [note_name_to_number] of the external package pretty_midi,
    which is not part of the repository.  A name is a letter [A-Ga-g], an
    optional accidental [#], [b] or [!], and a signed decimal octave;
    the number is [12 * (octave + 1) + semitone + accidental]; any other
    name raises [ValueError]. *)
Definition note_name_to_number (note_name : string) : result Z :=
  match note_name with
  | EmptyString => Raise ValueError
  | String n rest =>
      match pitch_map n with
      | None => Raise ValueError
      | Some p =>
          let '(offset, rest') :=
            match rest with
            | String a rest'' =>
                match acc_map a with
                | Some o => (o, rest'')
                | None => (0, rest)
                end
            | EmptyString => (0, rest)
            end in
          match octave rest' with
          | Some oct => Ok (12 * (oct + 1) + p + offset)
          | None => Raise ValueError
          end
      end
  end.

End PrettyMidi.

(** ** [chord_to_notes] *)

Definition scale_degrees_major : gmap string Z :=
  list_to_map
    [("I", 0); ("ii", 2); ("iii", 4); ("IV", 5); ("V", 7); ("vi", 9); ("bVII", 10)].

Definition scale_degrees_minor : gmap string Z :=
  list_to_map
    [("i", 0); ("ii", 2); ("III", 3); ("iv", 5); ("v", 7); ("VI", 8); ("bVII", 10)].

(** The degree table and the triad intervals selected by [mode]. *)
Definition chord_scale (mode : string) : gmap string Z :=
  if bool_decide (mode = "Major") then scale_degrees_major else scale_degrees_minor.

Definition chord_intervals (mode : string) : list Z :=
  if bool_decide (mode = "Major") then [0; 4; 7] else [0; 3; 7].

Definition chord_to_notes (chord key mode : string) : result (list Z) :=
  let scale := chord_scale mode in
  let intervals := chord_intervals mode in
  result_bind (PrettyMidi.note_name_to_number (key +:+ "4")) (fun root_pitch =>
  let deg := if bool_decide (is_Some (scale !! chord)) then chord else "I" in
  let root := (root_pitch + default 0 (scale !! deg)) mod 128 in
  Ok (map (fun interval => root + interval) intervals)).

(** ** [emotion_tempo] *)

Definition emotion_table : gmap string Z :=
  list_to_map [("Happy", 120); ("Sad", 70); ("Mysterious", 90); ("Excited", 140)].

Definition emotion_tempo (emotion : string) : Z :=
  default 100 (emotion_table !! emotion).

(** ** [make_scale] *)

Definition major_intervals : list Z := [0; 2; 4; 5; 7; 9; 11].
Definition minor_intervals : list Z := [0; 2; 3; 5; 7; 8; 10].

Definition make_scale (key mode : string) : result (list Z) :=
  result_bind (PrettyMidi.note_name_to_number (key +:+ "4")) (fun base =>
  let intervals := if bool_decide (mode = "Major") then major_intervals else minor_intervals in
  Ok (map (fun i => (base + i) mod 128) intervals)).

(** ** [evolve_melody] *)

Definition STEPS : list Z := [-2; -1; 0; 1; 2].

(** [scale_notes.index(prev_note) if prev_note in scale_notes else 0] *)
Definition cursor_index (scale_notes : list Z) (prev_note : Z) : Z :=
  match py_index prev_note scale_notes with
  | Some i => Z.of_nat i
  | None => 0
  end.

(** [min(max(idx + step, 0), len(scale_notes)-1)] *)
Definition next_index (scale_notes : list Z) (prev_note step : Z) : Z :=
  Z.min (Z.max (cursor_index scale_notes prev_note + step) 0)
        (Z.of_nat (length scale_notes) - 1).

(** One pass of the loop body: draw a step, move the cursor, emit. *)
Definition walk_step (scale_notes : list Z) (prev_note : Z) : M Z :=
  step ← random_choice STEPS;
  lift (py_getitem scale_notes (next_index scale_notes prev_note step)).

(** [for _ in range(n)] with the loop variables [prev_note] and [melody]. *)
Fixpoint evolve_loop (n : nat) (scale_notes : list Z) (prev_note : Z) (melody : list Z)
  : M (list Z) :=
  match n with
  | O => mret melody
  | S n' =>
      next_note ← walk_step scale_notes prev_note;
      evolve_loop n' scale_notes next_note (melody ++ [next_note])
  end.

Definition evolve_melody (prev scale_notes : list Z) (length : Z) : M (list Z) :=
  prev_note ← match last prev with
              | Some p => mret p
              | None => random_choice scale_notes
              end;
  evolve_loop (range_len length) scale_notes prev_note [].

(** ** [generate_music] *)

Record Note : Type := mkNote { velocity : Z; pitch : Z; start : float; end_ : float }.
Record Instrument : Type := mkInstrument { program : Z; notes : list Note }.
Record PrettyMIDI : Type := mkMIDI { initial_tempo : Z; instruments : list Instrument }.

(** Conversion of a Python [int] to [float] in mixed arithmetic (exact
    below [2^53]; the model is for integers below [2^63], list positions and
    chord counts). *)
Definition float_of_int (n : Z) : float := PrimFloat.of_uint63 (Uint63.of_Z n).
Definition of_idx (idx : nat) : float := float_of_int (Z.of_nat idx).

(** The loop variables of the driver. *)
Record driver : Type := mkDriver {
  time : float;
  melody : list Z;
  inst_notes : list Note;
  notes_plot : list (float * Z)
}.

(** [Note(velocity=70, pitch=int(n), start=time, end=time+0.9)] *)
Definition chord_note (time : float) (n : Z) : Note :=
  mkNote 70 n time (time + 0.9)%float.

(** [Note(velocity=100, pitch=int(n), start=time+idx*0.25,
    end=time+idx*0.25+0.2)] *)
Definition melody_note (time : float) (idx : nat) (n : Z) : Note :=
  mkNote 100 n (time + of_idx idx * 0.25)%float (time + of_idx idx * 0.25 + 0.2)%float.

(** [(time+idx*0.25, n)] *)
Definition plot_point (time : float) (idx : nat) (n : Z) : float * Z :=
  ((time + of_idx idx * 0.25)%float, n).

(** Body of [for chord in chord_prog]. *)
Definition chord_body (key mode : string) (scale_notes : list Z) (st : driver)
    (chord : string) : M driver :=
  chord_notes ← lift (chord_to_notes chord key mode);
  let notes1 := inst_notes st ++ map (chord_note (time st)) chord_notes in
  melody ← evolve_melody (melody st) scale_notes 4;
  mret {| time := (time st + 1)%float;
          melody := melody;
          inst_notes := notes1 ++ imap (melody_note (time st)) melody;
          notes_plot := notes_plot st ++ imap (plot_point (time st)) melody |}.

Fixpoint for_each {A S} (body : S -> A -> M S) (l : list A) (st : S) : M S :=
  match l with
  | [] => mret st
  | x :: l' => st' ← body st x; for_each body l' st'
  end.

Fixpoint for_range {S} (n : nat) (body : S -> M S) (st : S) : M S :=
  match n with
  | O => mret st
  | S n' => st' ← body st; for_range n' body st'
  end.

Definition FALLBACK_PROGRESSIONS : list (list string) := [["I"; "IV"; "V"; "I"]].

(** [GENRE_PROGRESSIONS.get(genre, [["I", "IV", "V", "I"]])[0]] *)
Definition chord_prog_of (genre : string) : result (list string) :=
  py_getitem (default FALLBACK_PROGRESSIONS (GENRE_PROGRESSIONS !! genre)) 0.

(** The two nested loops, from the state set up before them. *)
Definition compose (key mode : string) (scale_notes : list Z) (chord_prog : list string)
    (generations : Z) (st : driver) : M driver :=
  for_range (range_len generations)
            (for_each (chord_body key mode scale_notes) chord_prog) st.

Definition generate_music (genre key mode emotion : string) (generations : Z)
  : M (PrettyMIDI * list (float * Z) * Z) :=
  let tempo := emotion_tempo emotion in
  scale_notes ← lift (make_scale key mode);
  chord_prog ← lift (chord_prog_of genre);
  seed ← random_choice scale_notes;
  st ← compose key mode scale_notes chord_prog generations
         {| time := 0%float; melody := [seed]; inst_notes := []; notes_plot := [] |};
  mret (mkMIDI tempo [mkInstrument 0 (inst_notes st)], notes_plot st, tempo).

(** * Vocabulary of the properties *)

(** Draws taken to choose the first cursor: none when [prev] is not empty. *)
Definition seed_draws (prev : list Z) : nat :=
  match last prev with
  | Some _ => 0
  | None => 1
  end.

(** The interval pattern selected by [mode] in [make_scale]. *)
Definition mode_intervals (mode : string) : list Z :=
  if bool_decide (mode = "Major") then [0; 2; 4; 5; 7; 9; 11] else [0; 2; 3; 5; 7; 8; 10].

(** The symbol of the tonic triad in the vocabulary of [mode]. *)
Definition tonic_symbol (mode : string) : string :=
  if bool_decide (mode = "Major") then "I" else "i".

(** The three notes of a chord sounded at the time cursor [t]: each starts
    at [t] and ends at the binary64 sum [t + 0.9]. *)
Definition chord_part (t : float) (triad : list Z) (cn : list Note) : Prop :=
  length cn = 3%nat ∧
  map pitch cn = triad ∧
  Forall (λ c, velocity c = 70 ∧ start c = t ∧ end_ c = (t + 0.9)%float) cn.

(** The four melody notes of a segment that starts at the time cursor [t]:
    note [i] starts at the binary64 value [t + i * 0.25] and ends at the
    binary64 sum of that start and [0.2]. *)
Definition melody_part (t : float) (mel : list Z) (mn : list Note) : Prop :=
  length mn = 4%nat ∧
  map pitch mn = mel ∧
  ∀ (i : nat) (m : Note), mn !! i = Some m →
    velocity m = 100 ∧
    start m = (t + of_idx i * 0.25)%float ∧
    end_ m = (start m + 0.2)%float.

(** [emitted key mode scale t prev g chords out prev' g']: processing the
    chords [chords] in order, with the time cursor at [t], the melody so far
    [prev] and the random source [g], appends the notes [out] and ends with
    melody [prev'] and random source [g'].  Per chord: its triad, then the
    four pitches the evolver returns for length 4, then the next chord with
    the time cursor at the binary64 sum [t + 1]. *)
Inductive emitted (key mode : string) (scale_notes : list Z)
  : float → list Z → RNG → list string → list Note → list Z → RNG → Prop :=
| emitted_done t prev g :
    emitted key mode scale_notes t prev g [] [] prev g
| emitted_chord t prev g chord chords triad mel g1 cn mn rest prev' g' :
    chord_to_notes chord key mode = Ok triad →
    evolve_melody prev scale_notes 4 g = Ok (mel, g1) →
    chord_part t triad cn →
    melody_part t mel mn →
    emitted key mode scale_notes (t + 1)%float mel g1 chords rest prev' g' →
    emitted key mode scale_notes t prev g (chord :: chords) (cn ++ mn ++ rest) prev' g'.



(** The (start, end) pair of a note. *)
Definition note_times (n : Note) : float * float := (start n, end_ n).

(** The (start, end) pairs of the seven notes of a chord whose time cursor
    is [t], and those of [n] chords in a row from the time cursor [t]. *)
Definition slot_times (t : float) : list (float * float) :=
  [ (t, t + 0.9); (t, t + 0.9); (t, t + 0.9);
    (t + of_idx 0 * 0.25, t + of_idx 0 * 0.25 + 0.2);
    (t + of_idx 1 * 0.25, t + of_idx 1 * 0.25 + 0.2);
    (t + of_idx 2 * 0.25, t + of_idx 2 * 0.25 + 0.2);
    (t + of_idx 3 * 0.25, t + of_idx 3 * 0.25 + 0.2) ]%float.

Fixpoint run_times (n : nat) (t : float) : list (float * float) :=
  match n with
  | O => []
  | S n' => slot_times t ++ run_times n' (t + 1)%float
  end.


(** A (start, end) pair inside second number [j]: [j <= start < end <= j + 1]. *)
Definition within_second (j : Z) (p : float * float) : bool :=
  (float_of_int j <=? p.1)%float && (p.1 <? p.2)%float
  && (p.2 <=? float_of_int (j + 1))%float.

(** Boolean check that the pair at position [k], [k + 1], ... lies inside
    second number [k / 7], [(k + 1) / 7], ... *)
Fixpoint within_slots (k : Z) (l : list (float * float)) : bool :=
  match l with
  | [] => true
  | p :: l' => within_second (k / 7) p && within_slots (k + 1) l'
  end.

(** Largest number of chords for which the times of a run are checked. *)
Definition CHECKED_CHORDS : Z := 100000.

(** What the caller gets back, without the state of the random source. *)
Definition value {A} (r : result (A * RNG)) : result A :=
  match r with
  | Ok (a, _) => Ok a
  | Raise e => Raise e
  end.

(** Two random sources that deliver the same next [n] draws. *)
Definition same_draws (n : nat) (g1 g2 : RNG) : Prop :=
  ∀ k, (k < n)%nat → tape g1 (pos g1 + k) = tape g2 (pos g2 + k).

(** Two results with the same outcome (same value satisfying [P], or same
    exception) whose random sources still deliver the same [n] draws. *)
Definition agree_after {A} (n : nat) (P : A → Prop) (r1 r2 : result (A * RNG)) : Prop :=
  match r1, r2 with
  | Ok (a1, h1), Ok (a2, h2) => a1 = a2 ∧ P a1 ∧ same_draws n h1 h2
  | Raise e1, Raise e2 => e1 = e2
  | _, _ => False
  end.

(** [chained R p l]: [R] relates [p] to the first element of [l] and every
    element of [l] to the next one. *)
Fixpoint chained {A} (R : A → A → Prop) (p : A) (l : list A) : Prop :=
  match l with
  | [] => True
  | q :: l' => R p q ∧ chained R q l'
  end.

(** The (start, pitch) pairs of the melody notes (velocity 100) of a note
    list, in order. *)
Definition melody_points (l : list Note) : list (float * Z) :=
  map (λ n, (start n, pitch n)) (filter (λ n, velocity n = 100) l).

(** ** Sample states of the random source *)

(** Raw draws 1, 4, 7, ... *)
Definition g0 : RNG := mkRNG (fun n => (3 * n + 1)%nat) 0.

(** Every draw picks index 3 of [STEPS] (step [+1]), resp. index 1 (step [-1]). *)
Definition g_up : RNG := mkRNG (fun _ => 3%nat) 0.
Definition g_down : RNG := mkRNG (fun _ => 1%nat) 0.

(** Two different states, at different positions of different tapes, whose
    next 17 draws are the same. *)
Definition g_a : RNG := mkRNG (fun n => n) 0.
Definition g_b : RNG := mkRNG (fun n => if (n <? 20)%nat then (n - 3)%nat else 7%nat) 3.

(** * Properties *)

Ltac unfold_M :=
  unfold mbind, mret, M_bind, M_ret, bind, ret, lift in *.

(** ** Random source and list primitives *)

Lemma random_choice_ok {A} (a : list A) (g : RNG) :
  a ≠ [] → ∃ x, random_choice a g = Ok (x, advance g) ∧ x ∈ a.
Proof.
  intros Ha. unfold random_choice.
  assert (Hlt : (draw g mod length a < length a)%nat).
  { apply Nat.mod_upper_bound. destruct a; [done | simpl; lia]. }
  destruct (lookup_lt_is_Some_2 _ _ Hlt) as [x Hx].
  exists x. rewrite Hx. split; [done |].
  by eapply list_elem_of_lookup_2.
Qed.

Lemma random_choice_empty {A} (g : RNG) :
  random_choice (@nil A) g = Raise ValueError.
Proof. reflexivity. Qed.

Lemma py_getitem_nonneg {A} (l : list A) (i : Z) :
  0 ≤ i < Z.of_nat (length l) →
  ∃ x, py_getitem l i = Ok x ∧ l !! Z.to_nat i = Some x.
Proof.
  intros Hi. unfold py_getitem.
  destruct (Z.ltb_spec i 0) as [? | _]; [lia |].
  destruct (Z.leb_spec 0 i) as [_ | ?]; [| lia].
  destruct (Z.ltb_spec i (Z.of_nat (length l))) as [_ | ?]; [| lia].
  simpl.
  destruct (lookup_lt_is_Some_2 l (Z.to_nat i)) as [x Hx]; [lia |].
  exists x. by rewrite Hx.
Qed.

Lemma py_index_lookup (x : Z) (l : list Z) (i : nat) :
  py_index x l = Some i → l !! i = Some x.
Proof.
  revert i. induction l as [| y l IH]; intros i; simpl; [done |].
  case_bool_decide as Hy.
  - intros [= <-]. by subst.
  - destruct (py_index x l) as [j |] eqn:Hj; simpl; [| done].
    intros [= <-]. simpl. by apply IH.
Qed.

Lemma py_index_first (x : Z) (l : list Z) (i j : nat) :
  py_index x l = Some i → (j < i)%nat → l !! j ≠ Some x.
Proof.
  revert i j. induction l as [| y l IH]; intros i j; simpl; [done |].
  case_bool_decide as Hy.
  - intros [= <-]. lia.
  - destruct (py_index x l) as [k |] eqn:Hk; simpl; [| done].
    intros [= <-] Hj. destruct j as [| j]; simpl.
    + congruence.
    + apply (IH k); [done | lia].
Qed.

Lemma py_index_None (x : Z) (l : list Z) :
  py_index x l = None ↔ x ∉ l.
Proof.
  induction l as [| y l IH]; simpl.
  - split; [intros _; apply not_elem_of_nil | done].
  - case_bool_decide as Hy.
    + subst. split; [done |]. intros H. exfalso. apply H. left.
    + destruct (py_index x l) as [k |] eqn:Hk; simpl.
      * split; [done |]. intros H. exfalso.
        destruct IH as [_ IH]. destruct (decide (x ∈ l)) as [Hin | Hin].
        -- apply H. by right.
        -- by specialize (IH Hin).
      * split; [| done]. intros _ Hin.
        apply elem_of_cons in Hin as [-> | Hin]; [done |].
        by apply IH in Hin.
Qed.

(** ** The melody walk *)

Lemma cursor_index_range (scale_notes : list Z) (prev_note : Z) :
  scale_notes ≠ [] →
  0 ≤ cursor_index scale_notes prev_note < Z.of_nat (length scale_notes).
Proof.
  intros Hne. unfold cursor_index.
  destruct (py_index prev_note scale_notes) as [i |] eqn:Hi.
  - apply py_index_lookup, lookup_lt_Some in Hi. lia.
  - destruct scale_notes; [done | simpl; lia].
Qed.

Lemma next_index_range (scale_notes : list Z) (prev_note step : Z) :
  scale_notes ≠ [] →
  0 ≤ next_index scale_notes prev_note step < Z.of_nat (length scale_notes).
Proof.
  intros Hne. unfold next_index.
  assert (0 < Z.of_nat (length scale_notes)) by (destruct scale_notes; [done | simpl; lia]).
  lia.
Qed.

Lemma walk_step_ok (scale_notes : list Z) (prev_note : Z) (g : RNG) :
  scale_notes ≠ [] →
  ∃ step next_note,
    random_choice STEPS g = Ok (step, advance g) ∧
    walk_step scale_notes prev_note g = Ok (next_note, advance g) ∧
    scale_notes !! Z.to_nat (next_index scale_notes prev_note step) = Some next_note.
Proof.
  intros Hne.
  destruct (random_choice_ok STEPS g) as (step & Hstep & _); [done |].
  destruct (py_getitem_nonneg scale_notes (next_index scale_notes prev_note step))
    as (x & Hx & Hlook); [by apply next_index_range |].
  exists step, x. split; [done |]. split; [| done].
  unfold walk_step. unfold_M. by rewrite Hstep, Hx.
Qed.

Lemma evolve_loop_ok (n : nat) (scale_notes : list Z) :
  scale_notes ≠ [] →
  ∀ (prev_note : Z) (acc : list Z) (g : RNG),
  ∃ out,
    evolve_loop n scale_notes prev_note acc g
      = Ok (acc ++ out, mkRNG (tape g) (pos g + n)) ∧
    length out = n ∧ Forall (λ p, p ∈ scale_notes) out.
Proof.
  intros Hne. induction n as [| n IH]; intros prev_note acc g.
  - exists []. simpl. unfold_M. rewrite app_nil_r, Nat.add_0_r. by destruct g.
  - destruct (walk_step_ok scale_notes prev_note g Hne) as (step & x & _ & Hw & Hx).
    destruct (IH x (acc ++ [x]) (advance g)) as (out & Hout & Hlen & Hall).
    exists (x :: out). simpl. unfold_M. rewrite Hw.
    unfold_M. rewrite Hout. simpl. rewrite <- app_assoc. simpl.
    replace (pos g + S n)%nat with (S (pos g + n)) by lia.
    split; [done |]. split; [by rewrite Hlen |].
    constructor; [| done]. by eapply list_elem_of_lookup_2.
Qed.

Lemma evolve_melody_run (prev scale_notes : list Z) (L : Z) (g : RNG) :
  scale_notes ≠ [] →
  ∃ out,
    evolve_melody prev scale_notes L g
      = Ok (out, mkRNG (tape g) (pos g + seed_draws prev + range_len L)) ∧
    length out = range_len L ∧ Forall (λ p, p ∈ scale_notes) out.
Proof.
  intros Hne. unfold evolve_melody, seed_draws. unfold_M.
  destruct (last prev) as [p |].
  - destruct (evolve_loop_ok (range_len L) scale_notes Hne p [] g) as (out & Hout & H).
    exists out. rewrite Nat.add_0_r. by rewrite Hout.
  - destruct (random_choice_ok scale_notes g Hne) as (p & Hp & _). rewrite Hp.
    destruct (evolve_loop_ok (range_len L) scale_notes Hne p [] (advance g)) as (out & Hout & H).
    exists out. rewrite Hout. simpl. by rewrite Nat.add_1_r.
Qed.

(** C1. For every non-empty scale and every length [L] (a count,
    [0 <= L]), [evolve_melody prev scale L] returns, whatever the random
    source delivers, a sequence of exactly [L] pitches, each of which is an
    element of the supplied scale. *)
Theorem evolve_melody_length_in_scale (prev scale_notes : list Z) (L : Z) (g : RNG) :
  scale_notes ≠ [] → 0 ≤ L →
  ∃ melody g',
    evolve_melody prev scale_notes L g = Ok (melody, g') ∧
    Z.of_nat (length melody) = L ∧
    Forall (λ p, p ∈ scale_notes) melody.
Proof.
  intros Hne HL.
  destruct (evolve_melody_run prev scale_notes L g Hne) as (out & Hrun & Hlen & Hall).
  exists out. eexists. split; [exact Hrun |]. split; [| done].
  rewrite Hlen. unfold range_len. lia.
Qed.

Lemma evolve_melody_length_in_scale_witness :
  ∃ melody g',
    evolve_melody [] [60; 62; 64] 5 g0 = Ok (melody, g') ∧
    Z.of_nat (length melody) = 5 ∧
    Forall (λ p, p ∈ [60; 62; 64]) melody.
Proof. apply evolve_melody_length_in_scale; [done | lia]. Defined.

(** ** Clamping at the ends of the scale *)

Lemma evolve_loop_unroll (n : nat) (scale_notes : list Z) (prev_note p : Z)
    (acc : list Z) (g g' : RNG) :
  walk_step scale_notes prev_note g = Ok (p, g') →
  evolve_loop (S n) scale_notes prev_note acc g
    = evolve_loop n scale_notes p (acc ++ [p]) g'.
Proof. intros Hw. simpl. unfold_M. by rewrite Hw. Qed.

Lemma walk_step_at (scale_notes : list Z) (prev_note step p : Z) (g : RNG) :
  random_choice STEPS g = Ok (step, advance g) →
  0 ≤ next_index scale_notes prev_note step →
  scale_notes !! Z.to_nat (next_index scale_notes prev_note step) = Some p →
  walk_step scale_notes prev_note g = Ok (p, advance g).
Proof.
  intros Hstep Hnn Hp. unfold walk_step. unfold_M. rewrite Hstep.
  destruct (py_getitem_nonneg scale_notes (next_index scale_notes prev_note step))
    as (x & Hx & Hlook).
  { apply lookup_lt_Some in Hp. lia. }
  rewrite Hx. congruence.
Qed.

(** C2. In every walk state of [evolve_melody] (cursor [prev_note], melody
    so far [acc], random source [g], [S n] passes left): if the cursor is
    located at the last index of the scale and the step drawn is positive,
    the next pitch emitted is the last pitch of the scale; if the cursor is
    located at index 0 and the step drawn is negative, it is the first
    pitch of the scale.  No wraparound in either direction. *)
Theorem walk_clamps_at_scale_ends (scale_notes : list Z) (prev_note step : Z)
    (acc : list Z) (n : nat) (g : RNG) :
  random_choice STEPS g = Ok (step, advance g) →
  (cursor_index scale_notes prev_note = Z.of_nat (length scale_notes) - 1 →
   0 < step →
   ∃ p, last scale_notes = Some p ∧
        evolve_loop (S n) scale_notes prev_note acc g
          = evolve_loop n scale_notes p (acc ++ [p]) (advance g))
  ∧
  (scale_notes ≠ [] →
   cursor_index scale_notes prev_note = 0 →
   step < 0 →
   ∃ p, head scale_notes = Some p ∧
        evolve_loop (S n) scale_notes prev_note acc g
          = evolve_loop n scale_notes p (acc ++ [p]) (advance g)).
Proof.
  intros Hstep. split.
  - intros Hidx Hpos.
    assert (Hne : scale_notes ≠ []).
    { intros ->. unfold cursor_index in Hidx. simpl in Hidx. lia. }
    assert (Hnext : next_index scale_notes prev_note step
                    = Z.of_nat (length scale_notes) - 1).
    { unfold next_index. rewrite Hidx. lia. }
    destruct (last scale_notes) as [p |] eqn:Hlast.
    2:{ apply last_None in Hlast. done. }
    exists p. split; [done |]. apply evolve_loop_unroll.
    rewrite last_lookup in Hlast.
    apply walk_step_at with (step := step); [done | |].
    + pose proof (next_index_range scale_notes prev_note step Hne). lia.
    + rewrite Hnext. rewrite <- Hlast. f_equal. lia.
  - intros Hne Hidx Hneg.
    assert (Hnext : next_index scale_notes prev_note step = 0).
    { unfold next_index. rewrite Hidx.
      assert (0 < Z.of_nat (length scale_notes))
        by (destruct scale_notes; [done | simpl; lia]).
      lia. }
    destruct scale_notes as [| p rest]; [done |].
    exists p. split; [done |]. apply evolve_loop_unroll.
    apply walk_step_at with (step := step); [done | |]; by rewrite Hnext.
Qed.

Lemma walk_clamps_at_scale_ends_witness :
  (∃ p, last [60; 62; 64] = Some p ∧
        evolve_loop 2 [60; 62; 64] 64 [] g_up
          = evolve_loop 1 [60; 62; 64] p ([] ++ [p]) (advance g_up))
  ∧
  (∃ p, head [60; 62; 64] = Some p ∧
        evolve_loop 2 [60; 62; 64] 60 [] g_down
          = evolve_loop 1 [60; 62; 64] p ([] ++ [p]) (advance g_down)).
Proof.
  split.
  - apply (walk_clamps_at_scale_ends [60; 62; 64] 64 1 [] 1 g_up);
      [reflexivity | reflexivity | lia].
  - apply (walk_clamps_at_scale_ends [60; 62; 64] 60 (-1) [] 1 g_down);
      [reflexivity | done | reflexivity | lia].
Defined.

(** In a scale without repeated pitches the located index of a pitch is
    the index it was read from, so the property also holds for "the pitch
    stored at the last index". *)
Lemma cursor_index_NoDup (scale_notes : list Z) (i : nat) (p : Z) :
  NoDup scale_notes → scale_notes !! i = Some p →
  cursor_index scale_notes p = Z.of_nat i.
Proof.
  intros Hnd Hi. unfold cursor_index.
  destruct (py_index p scale_notes) as [j |] eqn:Hj.
  - apply py_index_lookup in Hj. f_equal. by eapply NoDup_lookup.
  - apply py_index_None in Hj. exfalso. apply Hj. by eapply list_elem_of_lookup_2.
Qed.

(** With a repeated pitch, [index] finds the first occurrence: from the
    pitch stored at the last index of [[5; 7; 5]] a step of [+1] leads to
    [7]. *)
Example cursor_index_repeated :
  cursor_index [5; 7; 5] 5 = 0 ∧ walk_step [5; 7; 5] 5 g_up = Ok (7, advance g_up).
Proof. split; reflexivity. Qed.

(** ** Scales and chords *)

(** Each of the twelve key names, followed by the octave digit, is a note
    name; its number is 60 plus the position of the key in [KEYS]. *)
Lemma KEYS_note_number (key : string) :
  key ∈ KEYS →
  ∃ i : nat, KEYS !! i = Some key ∧ (i < 12)%nat ∧
             PrettyMidi.note_name_to_number (key +:+ "4") = Ok (60 + Z.of_nat i).
Proof.
  unfold KEYS. intros H.
  repeat (apply elem_of_cons in H as [-> | H]);
    [ exists 0%nat | exists 1%nat | exists 2%nat | exists 3%nat | exists 4%nat
    | exists 5%nat | exists 6%nat | exists 7%nat | exists 8%nat | exists 9%nat
    | exists 10%nat | exists 11%nat | by apply elem_of_nil in H ];
    (split; [reflexivity | split; [lia | reflexivity]]).
Qed.

Lemma make_scale_value (key mode : string) (tonic : Z) :
  PrettyMidi.note_name_to_number (key +:+ "4") = Ok tonic →
  make_scale key mode = Ok (map (λ i, (tonic + i) mod 128) (mode_intervals mode)).
Proof.
  intros Hk. unfold make_scale, mode_intervals. rewrite Hk. simpl.
  by case_bool_decide.
Qed.

Lemma mode_intervals_length (mode : string) : length (mode_intervals mode) = 7%nat.
Proof. unfold mode_intervals. by case_bool_decide. Qed.

(** C3. For every key of [KEYS] and every mode, [make_scale] returns exactly
    7 pitches, each in [0,127], the tonic at octave 4 plus the interval
    pattern of the mode ([0,2,4,5,7,9,11] for "Major", [0,2,3,5,7,8,10]
    otherwise) taken modulo 128 in degree order; the call neither reads nor
    changes the random source, so two calls with the same inputs return the
    same sequence. *)
Theorem make_scale_seven_pitches (key mode : string) :
  key ∈ KEYS →
  ∃ tonic scale,
    PrettyMidi.note_name_to_number (key +:+ "4") = Ok tonic ∧
    make_scale key mode = Ok scale ∧
    scale = map (λ i, (tonic + i) mod 128)
                (if bool_decide (mode = "Major")
                 then [0; 2; 4; 5; 7; 9; 11] else [0; 2; 3; 5; 7; 8; 10]) ∧
    length scale = 7%nat ∧
    Forall (λ p, 0 ≤ p ≤ 127) scale ∧
    ∀ g1 g2 : RNG,
      lift (make_scale key mode) g1 = Ok (scale, g1) ∧
      lift (make_scale key mode) g2 = Ok (scale, g2).
Proof.
  intros Hkey.
  destruct (KEYS_note_number key Hkey) as (i & _ & _ & Hnum).
  exists (60 + Z.of_nat i). eexists.
  split; [exact Hnum |].
  pose proof (make_scale_value key mode _ Hnum) as Hms.
  split; [exact Hms |]. split; [reflexivity |].
  split; [by rewrite length_map, mode_intervals_length |].
  split.
  - apply Forall_map, Forall_forall. intros x _. simpl.
    pose proof (Z.mod_pos_bound (60 + Z.of_nat i + x) 128). lia.
  - intros g1 g2. unfold lift. by rewrite Hms.
Qed.

Lemma make_scale_seven_pitches_witness :
  ∃ tonic scale,
    PrettyMidi.note_name_to_number ("A" +:+ "4") = Ok tonic ∧
    make_scale "A" "Minor" = Ok scale ∧
    scale = map (λ i, (tonic + i) mod 128)
                (if bool_decide ("Minor" = "Major")
                 then [0; 2; 4; 5; 7; 9; 11] else [0; 2; 3; 5; 7; 8; 10]) ∧
    length scale = 7%nat ∧
    Forall (λ p, 0 ≤ p ≤ 127) scale ∧
    ∀ g1 g2 : RNG,
      lift (make_scale "A" "Minor") g1 = Ok (scale, g1) ∧
      lift (make_scale "A" "Minor") g2 = Ok (scale, g2).
Proof. apply make_scale_seven_pitches. unfold KEYS. set_solver. Defined.

Lemma chord_to_notes_value (chord key mode : string) (tonic : Z) :
  PrettyMidi.note_name_to_number (key +:+ "4") = Ok tonic →
  chord_to_notes chord key mode
    = Ok (map (λ interval,
                 (tonic + default 0 (chord_scale mode !! chord)) mod 128 + interval)
              (chord_intervals mode)).
Proof.
  intros Hk. unfold chord_to_notes. rewrite Hk. simpl.
  destruct (chord_scale mode !! chord) as [d |] eqn:Hd.
  - rewrite bool_decide_true by eauto. by rewrite Hd.
  - rewrite bool_decide_false by (by intros [? ?]).
    unfold chord_scale in *. case_bool_decide; reflexivity.
Qed.

Lemma chord_intervals_length (mode : string) : length (chord_intervals mode) = 3%nat.
Proof. unfold chord_intervals. by case_bool_decide. Qed.

Lemma tonic_symbol_offset (mode : string) :
  chord_scale mode !! tonic_symbol mode = Some 0.
Proof. unfold chord_scale, tonic_symbol. by case_bool_decide. Qed.

(** C4. For every key and every chord symbol absent from the degree table
    of the mode, [chord_to_notes] returns what it returns for "I" when the
    mode is "Major" and for "i" otherwise (Minor); for a key of [KEYS]
    this is the tonic triad, and no exception is raised. *)
Theorem chord_to_notes_unknown_symbol (chord key mode : string) :
  chord_scale mode !! chord = None →
  chord_to_notes chord key mode
    = chord_to_notes (if bool_decide (mode = "Major") then "I" else "i") key mode
  ∧ (key ∈ KEYS →
     ∃ tonic,
       PrettyMidi.note_name_to_number (key +:+ "4") = Ok tonic ∧
       chord_to_notes chord key mode
         = Ok (map (λ interval, tonic mod 128 + interval) (chord_intervals mode))).
Proof.
  intros Habs. split.
  - fold (tonic_symbol mode).
    destruct (PrettyMidi.note_name_to_number (key +:+ "4")) as [tonic | e] eqn:Hk.
    + rewrite !(chord_to_notes_value _ key mode tonic Hk).
      by rewrite Habs, tonic_symbol_offset.
    + unfold chord_to_notes. by rewrite Hk.
  - intros Hkey. destruct (KEYS_note_number key Hkey) as (i & _ & _ & Hnum).
    exists (60 + Z.of_nat i). split; [done |].
    rewrite (chord_to_notes_value _ key mode _ Hnum), Habs. simpl.
    by rewrite Z.add_0_r.
Qed.

Lemma chord_to_notes_unknown_symbol_witness :
  chord_to_notes "bVI" "D" "Major"
    = chord_to_notes (if bool_decide ("Major" = "Major") then "I" else "i") "D" "Major"
  ∧ ("D" ∈ KEYS →
     ∃ tonic,
       PrettyMidi.note_name_to_number ("D" +:+ "4") = Ok tonic ∧
       chord_to_notes "bVI" "D" "Major"
         = Ok (map (λ interval, tonic mod 128 + interval) (chord_intervals "Major"))).
Proof. apply chord_to_notes_unknown_symbol. reflexivity. Defined.

(** C10. For each of the twelve keys and either mode the tonic is between
    60 and 71, so tonic plus interval stays below 128: the reduction modulo
    128 changes nothing and the scale is strictly increasing. *)
Theorem make_scale_strictly_increasing (key mode : string) :
  key ∈ KEYS →
  ∃ tonic scale,
    PrettyMidi.note_name_to_number (key +:+ "4") = Ok tonic ∧
    make_scale key mode = Ok scale ∧
    60 ≤ tonic ≤ 71 ∧
    Forall (λ i, tonic + i < 128) (mode_intervals mode) ∧
    scale = map (λ i, tonic + i) (mode_intervals mode) ∧
    StronglySorted Z.lt scale.
Proof.
  intros Hkey.
  destruct (KEYS_note_number key Hkey) as (i & _ & Hi & Hnum).
  exists (60 + Z.of_nat i). eexists.
  split; [exact Hnum |].
  split; [exact (make_scale_value key mode _ Hnum) |].
  split; [lia |].
  assert (Hsmall : Forall (λ x, 0 ≤ x ≤ 11) (mode_intervals mode)).
  { unfold mode_intervals. case_bool_decide; repeat constructor; lia. }
  split.
  { eapply Forall_impl; [exact Hsmall |]. simpl. intros x Hx. lia. }
  assert (Hmap : map (λ x, (60 + Z.of_nat i + x) mod 128) (mode_intervals mode)
                 = map (λ x, 60 + Z.of_nat i + x) (mode_intervals mode)).
  { apply map_ext_Forall. eapply Forall_impl; [exact Hsmall |].
    simpl. intros x Hx. apply Z.mod_small. lia. }
  split; [exact Hmap |].
  rewrite Hmap. unfold mode_intervals.
  case_bool_decide; simpl; repeat constructor; lia.
Qed.

Lemma make_scale_strictly_increasing_witness :
  ∃ tonic scale,
    PrettyMidi.note_name_to_number ("B" +:+ "4") = Ok tonic ∧
    make_scale "B" "Major" = Ok scale ∧
    60 ≤ tonic ≤ 71 ∧
    Forall (λ i, tonic + i < 128) (mode_intervals "Major") ∧
    scale = map (λ i, tonic + i) (mode_intervals "Major") ∧
    StronglySorted Z.lt scale.
Proof. apply make_scale_strictly_increasing. unfold KEYS. set_solver. Defined.

(** ** The composition driver *)

Lemma chord_part_intro (t : float) (triad : list Z) :
  length triad = 3%nat → chord_part t triad (map (chord_note t) triad).
Proof.
  intros Hlen. split; [by rewrite length_map |]. split.
  - rewrite map_map. simpl. apply map_id.
  - apply Forall_forall. intros c Hc.
    by apply list_elem_of_In, in_map_iff in Hc as (n & <- & _).
Qed.

Lemma melody_part_intro (t : float) (mel : list Z) :
  length mel = 4%nat → melody_part t mel (imap (melody_note t) mel).
Proof.
  intros Hlen. split; [by rewrite length_imap |]. split.
  - apply list_eq. intros i.
    change (map pitch (imap (melody_note t) mel)) with (pitch <$> imap (melody_note t) mel).
    rewrite list_lookup_fmap, list_lookup_imap.
    by destruct (mel !! i).
  - intros i m Hm. by apply list_lookup_imap_Some in Hm as (n & _ & ->).
Qed.

Lemma chord_to_notes_triad (chord key mode : string) (tonic : Z) :
  PrettyMidi.note_name_to_number (key +:+ "4") = Ok tonic →
  ∃ triad, chord_to_notes chord key mode = Ok triad ∧ length triad = 3%nat.
Proof.
  intros Hk. eexists. split; [by apply chord_to_notes_value |].
  by rewrite length_map, chord_intervals_length.
Qed.

(** One pass of [for chord in chord_prog]. *)
Lemma chord_body_run (key mode : string) (scale_notes : list Z) (st : driver)
    (chord : string) (g : RNG) (tonic : Z) :
  PrettyMidi.note_name_to_number (key +:+ "4") = Ok tonic →
  scale_notes ≠ [] →
  ∃ triad mel cn mn,
    chord_to_notes chord key mode = Ok triad ∧
    evolve_melody (melody st) scale_notes 4 g
      = Ok (mel, mkRNG (tape g) (pos g + seed_draws (melody st) + 4)) ∧
    length mel = 4%nat ∧
    chord_part (time st) triad cn ∧
    melody_part (time st) mel mn ∧
    chord_body key mode scale_notes st chord g
      = Ok ({| time := (time st + 1)%float;
               melody := mel;
               inst_notes := (inst_notes st ++ cn) ++ mn;
               notes_plot := notes_plot st ++ imap (plot_point (time st)) mel |},
            mkRNG (tape g) (pos g + seed_draws (melody st) + 4)).
Proof.
  intros Hk Hne.
  destruct (chord_to_notes_triad chord key mode tonic Hk) as (triad & Htriad & Hlen3).
  destruct (evolve_melody_run (melody st) scale_notes 4 g Hne) as (mel & Hmel & Hlen4 & _).
  change (range_len 4) with 4%nat in *.
  exists triad, mel, (map (chord_note (time st)) triad), (imap (melody_note (time st)) mel).
  split; [done |]. split; [done |]. split; [done |].
  split; [by apply chord_part_intro |].
  split; [by apply melody_part_intro |].
  unfold chord_body. unfold_M. by rewrite Htriad, Hmel.
Qed.

Lemma seed_draws_nonempty (prev : list Z) : prev ≠ [] → seed_draws prev = 0%nat.
Proof.
  intros Hne. unfold seed_draws. destruct (last prev) eqn:Hl; [done |].
  by apply last_None in Hl.
Qed.

(** The inner loop over a list of chords. *)
Lemma for_each_emitted (key mode : string) (scale_notes : list Z) (tonic : Z) :
  PrettyMidi.note_name_to_number (key +:+ "4") = Ok tonic →
  scale_notes ≠ [] →
  ∀ (chords : list string) (st : driver) (g : RNG),
    melody st ≠ [] →
    ∃ st' out,
      for_each (chord_body key mode scale_notes) chords st g
        = Ok (st', mkRNG (tape g) (pos g + 4 * length chords)) ∧
      inst_notes st' = inst_notes st ++ out ∧
      melody st' ≠ [] ∧
      emitted key mode scale_notes (time st) (melody st) g chords out (melody st')
              (mkRNG (tape g) (pos g + 4 * length chords)).
Proof.
  intros Hk Hne. induction chords as [| chord chords IH]; intros st g Hmel.
  - exists st, []. simpl. unfold_M.
    destruct g as [tp ps]. simpl. rewrite Nat.add_0_r.
    split; [done |]. split; [by rewrite app_nil_r |]. split; [done |]. constructor.
  - destruct (chord_body_run key mode scale_notes st chord g tonic Hk Hne)
      as (triad & mel & cn & mn & Htriad & Hev & Hlen & Hcn & Hmn & Hbody).
    rewrite (seed_draws_nonempty _ Hmel), Nat.add_0_r in Hev, Hbody.
    set (st1 := {| time := (time st + 1)%float; melody := mel;
                   inst_notes := (inst_notes st ++ cn) ++ mn;
                   notes_plot := notes_plot st ++ imap (plot_point (time st)) mel |}) in *.
    set (g1 := mkRNG (tape g) (pos g + 4)) in *.
    assert (Hmel1 : melody st1 ≠ []) by (simpl; intros ->; done).
    destruct (IH st1 g1 Hmel1) as (st' & rest & Hrun & Hnotes & Hmel' & Hem).
    exists st', (cn ++ mn ++ rest).
    assert (Hg : mkRNG (tape g1) (pos g1 + 4 * length chords)
                 = mkRNG (tape g) (pos g + 4 * length (chord :: chords))).
    { simpl. f_equal. lia. }
    rewrite Hg in Hrun, Hem.
    split.
    { simpl for_each. unfold_M. rewrite Hbody. exact Hrun. }
    split.
    { rewrite Hnotes. simpl. by rewrite <- !app_assoc. }
    split; [done |].
    by eapply emitted_chord.
Qed.

Lemma for_each_app {A S} (body : S → A → M S) (l1 l2 : list A) (st : S) (g : RNG) :
  for_each body (l1 ++ l2) st g
    = (st' ← for_each body l1 st; for_each body l2 st') g.
Proof.
  revert st g. induction l1 as [| x l1 IH]; intros st g; simpl; [done |].
  unfold_M. destruct (body st x g) as [[st1 g1] | e]; [| done]. apply IH.
Qed.

(** [for gen in range(n): for chord in chord_prog] visits the progression
    [n] times in a row. *)
Lemma for_range_for_each {A S} (body : S → A → M S) (n : nat) (l : list A)
    (st : S) (g : RNG) :
  for_range n (for_each body l) st g = for_each body (concat (replicate n l)) st g.
Proof.
  revert st g. induction n as [| n IH]; intros st g; simpl; [done |].
  rewrite for_each_app. unfold_M.
  destruct (for_each body l st g) as [[st1 g1] | e]; [| done]. apply IH.
Qed.

(** *** The progression of a genre *)

Lemma GENRE_PROGRESSIONS_entries (genre : string) (variants : list (list string)) :
  GENRE_PROGRESSIONS !! genre = Some variants →
  ∃ first rest, variants = first :: rest.
Proof.
  intros H. apply elem_of_list_to_map_2 in H.
  repeat (apply elem_of_cons in H as [[= -> ->] | H]); eauto.
  by apply elem_of_nil in H.
Qed.

Lemma chord_prog_of_known (genre : string) (first : list string)
    (rest : list (list string)) :
  GENRE_PROGRESSIONS !! genre = Some (first :: rest) →
  chord_prog_of genre = Ok first.
Proof. intros H. unfold chord_prog_of. by rewrite H. Qed.

Lemma chord_prog_of_unknown (genre : string) :
  GENRE_PROGRESSIONS !! genre = None →
  chord_prog_of genre = Ok ["I"; "IV"; "V"; "I"].
Proof. intros H. unfold chord_prog_of. by rewrite H. Qed.

Lemma chord_prog_of_ok (genre : string) :
  ∃ prog, chord_prog_of genre = Ok prog.
Proof.
  destruct (GENRE_PROGRESSIONS !! genre) as [variants |] eqn:H.
  - destruct (GENRE_PROGRESSIONS_entries genre variants H) as (first & rest & ->).
    exists first. by eapply chord_prog_of_known.
  - eexists. by apply chord_prog_of_unknown.
Qed.

(** *** A whole run *)

(** What a call of [generate_music] with a key of [KEYS] does: the scale,
    the progression, the seed pitch drawn first, and then the chords of the
    progression, [generations] times over. *)
Lemma generate_music_run (genre key mode emotion : string) (generations : Z) (g : RNG) :
  key ∈ KEYS →
  ∃ prog scale_notes seed out plot last_melody,
    chord_prog_of genre = Ok prog ∧
    make_scale key mode = Ok scale_notes ∧
    random_choice scale_notes g = Ok (seed, advance g) ∧
    let chords := concat (replicate (range_len generations) prog) in
    let g' := mkRNG (tape g) (pos g + 1 + 4 * length chords) in
    generate_music genre key mode emotion generations g
      = Ok (mkMIDI (emotion_tempo emotion) [mkInstrument 0 out], plot,
            emotion_tempo emotion, g') ∧
    emitted key mode scale_notes 0%float [seed] (advance g) chords out last_melody g'.
Proof.
  intros Hkey.
  destruct (KEYS_note_number key Hkey) as (i & _ & _ & Hnum).
  destruct (chord_prog_of_ok genre) as (prog & Hprog).
  pose proof (make_scale_value key mode _ Hnum) as Hscale.
  set (scale_notes := map (λ x, (60 + Z.of_nat i + x) mod 128) (mode_intervals mode)) in *.
  assert (Hne : scale_notes ≠ []).
  { intros Heq. apply (f_equal length) in Heq. unfold scale_notes in Heq.
    rewrite length_map, mode_intervals_length in Heq. done. }
  destruct (random_choice_ok scale_notes g Hne) as (seed & Hseed & _).
  set (st0 := {| time := 0%float; melody := [seed]; inst_notes := []; notes_plot := [] |}).
  destruct (for_each_emitted key mode scale_notes _ Hnum Hne
              (concat (replicate (range_len generations) prog)) st0 (advance g))
    as (st' & out & Hrun & Hnotes & _ & Hem); [done |].
  simpl in Hnotes. simpl tape in Hrun, Hem. simpl pos in Hrun, Hem.
  replace (S (pos g)) with (pos g + 1)%nat in Hrun, Hem by lia.
  exists prog, scale_notes, seed, out, (notes_plot st'), (melody st').
  split; [done |]. split; [done |]. split; [done |]. simpl.
  split; [| exact Hem].
  unfold generate_music, compose. unfold_M. rewrite Hscale, Hprog, Hseed.
  fold st0. rewrite for_range_for_each, Hrun. by rewrite Hnotes.
Qed.

(** *** Consequences of the emission order *)

Lemma emitted_length key mode scale_notes t prev g chords out prev' g' :
  emitted key mode scale_notes t prev g chords out prev' g' →
  length out = (7 * length chords)%nat.
Proof.
  induction 1 as [| t prev g chord chords triad mel g1 cn mn rest prev' g'
                    _ _ (Hcn & _) (Hmn & _) _ IH]; [done |].
  rewrite !length_app, Hcn, Hmn, IH. simpl. lia.
Qed.

Lemma emitted_first_triad key mode scale_notes t prev g chord chords out prev' g' :
  emitted key mode scale_notes t prev g (chord :: chords) out prev' g' →
  chord_to_notes chord key mode = Ok (map pitch (take 3 out)).
Proof.
  intros H.
  inversion H as [| ? ? ? ? ? triad mel g1 cn mn rest ? ? Htriad Hev Hcn Hmn Hrest]; subst.
  destruct Hcn as (Hlen & Hp & _).
  rewrite take_app_length' by done. by rewrite Hp.
Qed.

Lemma length_concat_replicate {A} (n : nat) (l : list A) :
  length (concat (replicate n l)) = (n * length l)%nat.
Proof.
  induction n as [| n IH]; simpl; [done |]. rewrite length_app, IH. lia.
Qed.

(** *** Times of the notes *)

(** The times of the notes depend on the number of chords alone. *)
Lemma emitted_times key mode scale_notes t prev g chords out prev' g' :
  emitted key mode scale_notes t prev g chords out prev' g' →
  map note_times out = run_times (length chords) t.
Proof.
  induction 1 as [| t prev g chord chords triad mel g1 cn mn rest prev' g'
                    _ _ Hcn Hmn _ IH]; [done |].
  rewrite !map_app, IH.
  change (run_times (length (chord :: chords)) t)
    with (slot_times t ++ run_times (length chords) (t + 1)%float).
  rewrite app_assoc. f_equal.
  destruct Hcn as (Hlen3 & _ & Hall). destruct Hmn as (Hlen4 & _ & Hmel).
  destruct cn as [| c1 [| c2 [| c3 [| ? ?]]]]; try discriminate Hlen3.
  destruct mn as [| m0 [| m1 [| m2 [| m3 [| ? ?]]]]]; try discriminate Hlen4.
  apply Forall_cons in Hall as ((_ & Hs1 & He1) & Hall).
  apply Forall_cons in Hall as ((_ & Hs2 & He2) & Hall).
  apply Forall_cons in Hall as ((_ & Hs3 & He3) & _).
  destruct (Hmel 0%nat m0 eq_refl) as (_ & Hs4 & He4).
  destruct (Hmel 1%nat m1 eq_refl) as (_ & Hs5 & He5).
  destruct (Hmel 2%nat m2 eq_refl) as (_ & Hs6 & He6).
  destruct (Hmel 3%nat m3 eq_refl) as (_ & Hs7 & He7).
  unfold slot_times, note_times. simpl.
  rewrite He4, He5, He6, He7, Hs4, Hs5, Hs6, Hs7.
  by rewrite Hs1, Hs2, Hs3, He1, He2, He3.
Qed.

Lemma run_times_prefix (n m : nat) (t : float) :
  ∃ rest, run_times (n + m) t = run_times n t ++ rest.
Proof.
  revert t. induction n as [| n IH]; intros t; [simpl; by eexists |].
  change (run_times (S n + m) t)
    with (slot_times t ++ run_times (n + m) (t + 1)%float).
  change (run_times (S n) t) with (slot_times t ++ run_times n (t + 1)%float).
  destruct (IH (t + 1)%float) as (rest & ->). exists rest. by rewrite app_assoc.
Qed.




Lemma within_slots_lookup (l : list (float * float)) :
  ∀ (k : Z) (i : nat) (p : float * float),
    within_slots k l = true → l !! i = Some p →
    within_second ((k + Z.of_nat i) / 7) p = true.
Proof.
  induction l as [| q l IH]; intros k i p H Hi; [done |].
  simpl in H. apply andb_true_iff in H as (Hq & Hl).
  destruct i as [| i]; simpl in Hi.
  - injection Hi as <-. by rewrite Z.add_0_r.
  - replace (k + Z.of_nat (S i)) with ((k + 1) + Z.of_nat i) by lia. by eapply IH.
Qed.


Lemma checked_within_slots :
  within_slots 0 (run_times (Z.to_nat CHECKED_CHORDS) 0) = true.
Proof. vm_compute. reflexivity. Qed.

Lemma run_times_checked (n : nat) :
  Z.of_nat n ≤ CHECKED_CHORDS →
  ∃ rest, run_times (Z.to_nat CHECKED_CHORDS) 0 = run_times n 0 ++ rest.
Proof.
  intros Hn.
  replace (Z.to_nat CHECKED_CHORDS) with (n + (Z.to_nat CHECKED_CHORDS - n))%nat by lia.
  apply run_times_prefix.
Qed.


(** Up to [CHECKED_CHORDS] chords from time [0.0], the note at position [k]
    lies inside second number [k / 7], the second of its chord. *)
Lemma emitted_within_seconds key mode scale_notes prev g chords out prev' g'
    (k : nat) (n : Note) :
  emitted key mode scale_notes 0%float prev g chords out prev' g' →
  Z.of_nat (length chords) ≤ CHECKED_CHORDS →
  out !! k = Some n →
  within_second (Z.of_nat k / 7) (note_times n) = true.
Proof.
  intros Hem Hn Hk. apply emitted_times in Hem.
  destruct (run_times_checked _ Hn) as (rest & Hrest).
  apply (within_slots_lookup _ 0 k (note_times n) checked_within_slots).
  rewrite Hrest. apply lookup_app_l_Some. rewrite <- Hem.
  change (map note_times out) with (note_times <$> out).
  by rewrite list_lookup_fmap, Hk.
Qed.




Lemma filter_velocity_all (v : Z) (l : list Note) :
  Forall (λ n, velocity n = v) l → filter (λ n, velocity n = v) l = l.
Proof.
  induction 1 as [| n l Hn _ IH]; [done |].
  rewrite filter_cons. destruct (decide (velocity n = v)); [| done]. by rewrite IH.
Qed.

Lemma filter_velocity_none (v w : Z) (l : list Note) :
  v ≠ w → Forall (λ n, velocity n = w) l → filter (λ n, velocity n = v) l = [].
Proof.
  intros Hvw. induction 1 as [| n l Hn _ IH]; [done |].
  rewrite filter_cons. destruct (decide (velocity n = v)); [congruence | done].
Qed.

Lemma chord_part_velocity t triad cn :
  chord_part t triad cn → Forall (λ n, velocity n = 70) cn.
Proof.
  intros (_ & _ & Hall). eapply Forall_impl; [exact Hall |]. simpl. tauto.
Qed.

Lemma melody_part_velocity t mel mn :
  melody_part t mel mn → Forall (λ n, velocity n = 100) mn.
Proof.
  intros (_ & _ & Hall). apply Forall_forall. intros m Hm.
  apply list_elem_of_lookup in Hm as (i & Hi). by destruct (Hall i m Hi).
Qed.

(** Three chord notes (velocity 70) and four melody notes (velocity 100)
    per chord processed. *)
Lemma emitted_velocity_counts key mode scale_notes t prev g chords out prev' g' :
  emitted key mode scale_notes t prev g chords out prev' g' →
  length (filter (λ n, velocity n = 70) out) = (3 * length chords)%nat ∧
  length (filter (λ n, velocity n = 100) out) = (4 * length chords)%nat.
Proof.
  induction 1 as [| t prev g chord chords triad mel g1 cn mn rest prev' g'
                    _ _ Hcn Hmn _ (IH70 & IH100)]; [done |].
  pose proof (chord_part_velocity _ _ _ Hcn) as Hv70.
  pose proof (melody_part_velocity _ _ _ Hmn) as Hv100.
  destruct Hcn as (Hlen3 & _). destruct Hmn as (Hlen4 & _).
  rewrite !filter_app, !length_app.
  rewrite (filter_velocity_all 70 cn Hv70), (filter_velocity_all 100 mn Hv100).
  rewrite (filter_velocity_none 70 100 mn), (filter_velocity_none 100 70 cn) by done.
  rewrite IH70, IH100, Hlen3, Hlen4. simpl. lia.
Qed.

(** C7. [generate_music("Pop", "C", "Major", "Happy", 1)] returns tempo 120
    and, whatever the random source, exactly 28 notes: 4 x 3 chord notes
    (velocity 70) and 4 x 4 melody notes (velocity 100); the pitches of the
    first three notes are [chord_to_notes("I", "C", "Major")]. *)
Theorem generate_music_pop_c_major_happy (g : RNG) :
  ∃ out plot g',
    generate_music "Pop" "C" "Major" "Happy" 1 g
      = Ok (mkMIDI 120 [mkInstrument 0 out], plot, 120, g') ∧
    length out = 28%nat ∧
    length (filter (λ n, velocity n = 70) out) = (4 * 3)%nat ∧
    length (filter (λ n, velocity n = 100) out) = (4 * 4)%nat ∧
    chord_to_notes "I" "C" "Major" = Ok (map pitch (take 3 out)) ∧
    map pitch (take 3 out) = [60; 64; 67].
Proof.
  destruct (generate_music_run "Pop" "C" "Major" "Happy" 1 g)
    as (prog & scale_notes & seed & out & plot & last_melody
        & Hprog & _ & _ & Hrun & Hem).
  { unfold KEYS. set_solver. }
  assert (prog = ["I"; "V"; "vi"; "IV"]) as -> by (vm_compute in Hprog; congruence).
  change (emotion_tempo "Happy") with 120 in Hrun.
  change (concat (replicate (range_len 1) ["I"; "V"; "vi"; "IV"]))
    with ["I"; "V"; "vi"; "IV"] in Hrun, Hem.
  exists out, plot. eexists. split; [exact Hrun |].
  pose proof (emitted_length _ _ _ _ _ _ _ _ _ _ Hem) as Hlen.
  pose proof (emitted_velocity_counts _ _ _ _ _ _ _ _ _ _ Hem) as (H70 & H100).
  pose proof (emitted_first_triad _ _ _ _ _ _ _ _ _ _ _ Hem) as Htriad.
  split; [exact Hlen |]. split; [exact H70 |]. split; [exact H100 |].
  split; [exact Htriad |].
  assert (Hc : chord_to_notes "I" "C" "Major" = Ok [60; 64; 67]) by reflexivity.
  congruence.
Qed.

(** C8. For a genre absent from [GENRE_PROGRESSIONS], [generate_music]
    (key of [KEYS]) raises nothing and plays the progression
    [["I"; "IV"; "V"; "I"]]; for a genre of the table it plays the first
    listed sequence. *)
Theorem generate_music_progression (genre key mode emotion : string) (generations : Z)
    (g : RNG) :
  key ∈ KEYS →
  ∃ prog scale_notes seed out plot tempo last_melody g',
    make_scale key mode = Ok scale_notes ∧
    generate_music genre key mode emotion generations g
      = Ok (mkMIDI tempo [mkInstrument 0 out], plot, tempo, g') ∧
    ¬ raises (generate_music genre key mode emotion generations g) ∧
    emitted key mode scale_notes 0%float [seed] (advance g)
            (concat (replicate (range_len generations) prog)) out last_melody g' ∧
    (GENRE_PROGRESSIONS !! genre = None → prog = ["I"; "IV"; "V"; "I"]) ∧
    (∀ variants, GENRE_PROGRESSIONS !! genre = Some variants →
                 variants !! 0%nat = Some prog).
Proof.
  intros Hkey.
  destruct (generate_music_run genre key mode emotion generations g Hkey)
    as (prog & scale_notes & seed & out & plot & last_melody
        & Hprog & Hscale & Hseed & Hrun & Hem).
  exists prog, scale_notes, seed, out, plot, (emotion_tempo emotion), last_melody.
  eexists. split; [done |]. split; [exact Hrun |].
  split. { intros [e He]. simpl in Hrun. congruence. }
  split; [exact Hem |]. split.
  - intros Hnone. rewrite (chord_prog_of_unknown genre Hnone) in Hprog. congruence.
  - intros variants Hsome.
    destruct (GENRE_PROGRESSIONS_entries genre variants Hsome) as (first & rest & ->).
    rewrite (chord_prog_of_known genre first rest Hsome) in Hprog. simpl. congruence.
Qed.

Lemma generate_music_progression_witness :
  ∃ prog scale_notes seed out plot tempo last_melody g',
    make_scale "C" "Major" = Ok scale_notes ∧
    generate_music "Blues" "C" "Major" "Happy" 1 g0
      = Ok (mkMIDI tempo [mkInstrument 0 out], plot, tempo, g') ∧
    ¬ raises (generate_music "Blues" "C" "Major" "Happy" 1 g0) ∧
    emitted "C" "Major" scale_notes 0%float [seed] (advance g0)
            (concat (replicate (range_len 1) prog)) out last_melody g' ∧
    (GENRE_PROGRESSIONS !! "Blues" = None → prog = ["I"; "IV"; "V"; "I"]) ∧
    (∀ variants, GENRE_PROGRESSIONS !! "Blues" = Some variants →
                 variants !! 0%nat = Some prog).
Proof. apply generate_music_progression. unfold KEYS. set_solver. Defined.

(** ** Non-positive iteration counts *)

Lemma range_len_nonpos (n : Z) : n ≤ 0 → range_len n = 0%nat.
Proof. unfold range_len. lia. Qed.

(** C5 (as amended). No validation is made: with a non-positive count the
    loops run zero times and nothing is raised.  [generate_music] with
    [generations <= 0] (key of [KEYS]) draws the seed pitch and returns the
    tempo with no note at all; [evolve_melody] with [length <= 0] returns
    the empty melody whenever [prev] or the scale is not empty. *)
Theorem nonpositive_count_runs_zero_times (genre key mode emotion : string)
    (prev scale_notes : list Z) (n : Z) (g : RNG) :
  n ≤ 0 →
  key ∈ KEYS →
  prev ≠ [] ∨ scale_notes ≠ [] →
  generate_music genre key mode emotion n g
    = Ok (mkMIDI (emotion_tempo emotion) [mkInstrument 0 []], [],
          emotion_tempo emotion, advance g)
  ∧ evolve_melody prev scale_notes n g
    = Ok ([], mkRNG (tape g) (pos g + seed_draws prev))
  ∧ ¬ raises (generate_music genre key mode emotion n g)
  ∧ ¬ raises (evolve_melody prev scale_notes n g).
Proof.
  intros Hn Hkey Hprev.
  assert (Hgen : generate_music genre key mode emotion n g
                 = Ok (mkMIDI (emotion_tempo emotion) [mkInstrument 0 []], [],
                       emotion_tempo emotion, advance g)).
  { destruct (KEYS_note_number key Hkey) as (i & _ & _ & Hnum).
    destruct (chord_prog_of_ok genre) as (prog & Hprog).
    pose proof (make_scale_value key mode _ Hnum) as Hscale.
    destruct (random_choice_ok
                (map (λ x, (60 + Z.of_nat i + x) mod 128) (mode_intervals mode)) g)
      as (seed & Hseed & _).
    { intros Heq. apply (f_equal length) in Heq.
      rewrite length_map, mode_intervals_length in Heq. done. }
    unfold generate_music, compose. unfold_M.
    rewrite Hscale, Hprog, Hseed, (range_len_nonpos n Hn). reflexivity. }
  assert (Hev : evolve_melody prev scale_notes n g
                = Ok ([], mkRNG (tape g) (pos g + seed_draws prev))).
  { unfold evolve_melody, seed_draws. unfold_M.
    rewrite (range_len_nonpos n Hn). simpl.
    destruct (last prev) as [p |] eqn:Hlast.
    - rewrite Nat.add_0_r. by destruct g.
    - apply last_None in Hlast. destruct Hprev as [? | Hne]; [done |].
      destruct (random_choice_ok scale_notes g Hne) as (p & Hp & _).
      rewrite Hp. unfold advance. by rewrite Nat.add_1_r. }
  split; [exact Hgen |]. split; [exact Hev |].
  split; intros [e He]; congruence.
Qed.

Lemma nonpositive_count_runs_zero_times_witness :
  generate_music "Rock" "E" "Minor" "Excited" (-3) g0
    = Ok (mkMIDI (emotion_tempo "Excited") [mkInstrument 0 []], [],
          emotion_tempo "Excited", advance g0)
  ∧ evolve_melody [64] [64; 66; 67] (-3) g0
    = Ok ([], mkRNG (tape g0) (pos g0 + seed_draws [64]))
  ∧ ¬ raises (generate_music "Rock" "E" "Minor" "Excited" (-3) g0)
  ∧ ¬ raises (evolve_melody [64] [64; 66; 67] (-3) g0).
Proof.
  apply nonpositive_count_runs_zero_times;
    [lia | unfold KEYS; set_solver | by left].
Defined.

(** [generations = 0] and [length = 0] are accepted silently. *)
Lemma zero_count_is_not_reported :
  ¬ raises (generate_music "Pop" "C" "Major" "Happy" 0 g0)
  ∧ ¬ raises (evolve_melody [60] [60; 62; 64] 0 g0)
  ∧ generate_music "Pop" "C" "Major" "Happy" 0 g0
    = Ok (mkMIDI 120 [mkInstrument 0 []], [], 120, advance g0)
  ∧ evolve_melody [60] [60; 62; 64] 0 g0 = Ok ([], g0).
Proof.
  assert (H1 : generate_music "Pop" "C" "Major" "Happy" 0 g0
               = Ok (mkMIDI 120 [mkInstrument 0 []], [], 120, advance g0))
    by reflexivity.
  assert (H2 : evolve_melody [60] [60; 62; 64] 0 g0 = Ok ([], g0)) by reflexivity.
  split; [intros [e He]; congruence |].
  split; [intros [e He]; congruence |]. by split.
Qed.

(** ** Dependence on the random source *)

Lemma same_draws_le (n m : nat) (g1 g2 : RNG) :
  (m ≤ n)%nat → same_draws n g1 g2 → same_draws m g1 g2.
Proof. intros Hle H k Hk. apply H. lia. Qed.

Lemma same_draws_advance (n : nat) (g1 g2 : RNG) :
  same_draws (S n) g1 g2 → draw g1 = draw g2 ∧ same_draws n (advance g1) (advance g2).
Proof.
  intros H. split.
  - specialize (H 0%nat). rewrite !Nat.add_0_r in H. apply H. lia.
  - intros k Hk. simpl. specialize (H (S k)).
    rewrite <- !Nat.add_succ_comm in H. apply H. lia.
Qed.

Lemma agree_after_value {A} (n : nat) (P : A → Prop) (r1 r2 : result (A * RNG)) :
  agree_after n P r1 r2 → value r1 = value r2.
Proof.
  destruct r1 as [[a1 h1] | e1], r2 as [[a2 h2] | e2]; simpl; try done.
  - by intros (-> & _).
  - by intros ->.
Qed.

Lemma agree_after_weaken {A} (n : nat) (P Q : A → Prop) (r1 r2 : result (A * RNG)) :
  (∀ a, P a → Q a) → agree_after n P r1 r2 → agree_after n Q r1 r2.
Proof.
  intros HPQ. destruct r1 as [[a1 h1] | e1], r2 as [[a2 h2] | e2]; simpl; try done.
  intros (-> & HP & Hd). auto.
Qed.

Lemma bind_agree {A B} (n n' : nat) (P : A → Prop) (Q : B → Prop)
    (m : M A) (k : A → M B) (g1 g2 : RNG) :
  agree_after n P (m g1) (m g2) →
  (∀ a h1 h2, P a → same_draws n h1 h2 → agree_after n' Q (k a h1) (k a h2)) →
  agree_after n' Q ((m ≫= k) g1) ((m ≫= k) g2).
Proof.
  intros Hm Hk. unfold_M.
  destruct (m g1) as [[a1 h1] | e1], (m g2) as [[a2 h2] | e2]; simpl in *; try done.
  destruct Hm as (-> & HP & Hd). by apply Hk.
Qed.

Lemma ret_agree {A} (n : nat) (P : A → Prop) (a : A) (g1 g2 : RNG) :
  P a → same_draws n g1 g2 → agree_after n P ((mret a : M A) g1) ((mret a : M A) g2).
Proof. intros HP Hd. unfold_M. simpl. done. Qed.

Lemma lift_agree {A} (n : nat) (r : result A) (g1 g2 : RNG) :
  same_draws n g1 g2 → agree_after n (λ a, r = Ok a) (lift r g1) (lift r g2).
Proof. intros Hd. unfold lift. destruct r; simpl; done. Qed.

Lemma random_choice_agree {A} (n : nat) (a : list A) (g1 g2 : RNG) :
  same_draws (S n) g1 g2 →
  agree_after n (λ x, x ∈ a) (random_choice a g1) (random_choice a g2).
Proof.
  intros Hd. apply same_draws_advance in Hd as (Hdraw & Hd).
  unfold random_choice. rewrite Hdraw.
  destruct (a !! (draw g2 mod length a)%nat) as [x |] eqn:Hx; simpl; [| done].
  split; [done |]. split; [| done]. by eapply list_elem_of_lookup_2.
Qed.

Lemma walk_step_agree (n : nat) (scale_notes : list Z) (prev_note : Z) (g1 g2 : RNG) :
  same_draws (S n) g1 g2 →
  agree_after n (λ _, True) (walk_step scale_notes prev_note g1)
              (walk_step scale_notes prev_note g2).
Proof.
  intros Hd. unfold walk_step.
  eapply bind_agree; [by apply random_choice_agree |].
  intros step h1 h2 _ Hh. eapply agree_after_weaken; [| by apply lift_agree]. done.
Qed.

Lemma evolve_loop_agree (n : nat) (scale_notes : list Z) (k : nat) :
  ∀ (prev_note : Z) (acc : list Z) (g1 g2 : RNG),
    same_draws (k + n) g1 g2 →
    agree_after n (λ out, length out = (length acc + k)%nat)
                (evolve_loop k scale_notes prev_note acc g1)
                (evolve_loop k scale_notes prev_note acc g2).
Proof.
  induction k as [| k IH]; intros prev_note acc g1 g2 Hd.
  - simpl. apply (ret_agree n (λ out, length out = (length acc + 0)%nat)); [lia | done].
  - simpl evolve_loop.
    eapply bind_agree; [apply (walk_step_agree (k + n)); exact Hd |].
    intros x h1 h2 _ Hh.
    eapply agree_after_weaken; [| by apply IH].
    simpl. intros out ->. rewrite length_app. simpl. lia.
Qed.

Lemma evolve_melody_agree (n : nat) (prev scale_notes : list Z) (L : Z) (g1 g2 : RNG) :
  same_draws (seed_draws prev + range_len L + n) g1 g2 →
  agree_after n (λ out, length out = range_len L)
              (evolve_melody prev scale_notes L g1)
              (evolve_melody prev scale_notes L g2).
Proof.
  unfold evolve_melody, seed_draws. intros Hd.
  destruct (last prev) as [p |].
  - eapply bind_agree; [apply (ret_agree _ (λ _, True)); [done | exact Hd] |].
    intros x h1 h2 _ Hh.
    eapply agree_after_weaken; [| by apply evolve_loop_agree]. simpl. done.
  - eapply bind_agree; [apply (random_choice_agree (range_len L + n)); exact Hd |].
    intros x h1 h2 _ Hh.
    eapply agree_after_weaken; [| by apply evolve_loop_agree]. simpl. done.
Qed.

Lemma chord_body_agree (n : nat) (key mode : string) (scale_notes : list Z)
    (st : driver) (chord : string) (g1 g2 : RNG) :
  melody st ≠ [] →
  same_draws (4 + n) g1 g2 →
  agree_after n (λ st', melody st' ≠ [])
              (chord_body key mode scale_notes st chord g1)
              (chord_body key mode scale_notes st chord g2).
Proof.
  intros Hmel Hd. unfold chord_body.
  eapply bind_agree; [by apply lift_agree |].
  intros triad h1 h2 _ Hh.
  eapply bind_agree.
  { apply (evolve_melody_agree n). by rewrite (seed_draws_nonempty _ Hmel). }
  intros mel k1 k2 Hlen Hk. change (range_len 4) with 4%nat in Hlen.
  apply (ret_agree n (λ st', melody st' ≠ [])); [| done]. simpl. intros ->. done.
Qed.

Lemma for_each_agree (n : nat) (key mode : string) (scale_notes : list Z)
    (chords : list string) :
  ∀ (st : driver) (g1 g2 : RNG),
    melody st ≠ [] →
    same_draws (4 * length chords + n) g1 g2 →
    agree_after n (λ st', melody st' ≠ [])
                (for_each (chord_body key mode scale_notes) chords st g1)
                (for_each (chord_body key mode scale_notes) chords st g2).
Proof.
  induction chords as [| chord chords IH]; intros st g1 g2 Hmel Hd.
  - simpl. by apply (ret_agree n (λ st', melody st' ≠ [])).
  - simpl for_each.
    eapply bind_agree.
    { apply (chord_body_agree (4 * length chords + n)); [done |].
      eapply same_draws_le; [| exact Hd]. simpl. lia. }
    intros st1 h1 h2 Hmel1 Hh. by apply IH.
Qed.

(** C9 (as amended). [generate_music] has no seed or random-source
    parameter: it reads the process-wide random state.  With identical
    arguments, two runs whose random states deliver the same next
    [1 + 4 * generations * len(progression)] draws (so, two runs started
    from the same state) return the same notes, the same melody plot and the
    same tempo, or raise the same exception. *)
Theorem generate_music_same_draws (genre key mode emotion : string) (generations : Z)
    (prog : list string) (g1 g2 : RNG) :
  chord_prog_of genre = Ok prog →
  same_draws (1 + 4 * (range_len generations * length prog)) g1 g2 →
  value (generate_music genre key mode emotion generations g1)
    = value (generate_music genre key mode emotion generations g2).
Proof.
  intros Hprog Hd.
  apply (agree_after_value 0 (λ _, True)).
  unfold generate_music, compose.
  eapply bind_agree; [apply lift_agree; exact Hd |].
  intros scale_notes h1 h2 _ Hh.
  eapply bind_agree; [apply lift_agree; exact Hh |].
  intros prog' k1 k2 Hprog' Hk.
  assert (prog' = prog) as -> by congruence.
  eapply bind_agree; [apply random_choice_agree; exact Hk |].
  intros seed j1 j2 _ Hj.
  eapply bind_agree.
  { rewrite !for_range_for_each.
    apply (for_each_agree 0); [done |].
    by rewrite length_concat_replicate, Nat.add_0_r. }
  intros st i1 i2 _ Hi. by apply (ret_agree 0 (λ _, True)).
Qed.

Lemma generate_music_same_draws_witness :
  value (generate_music "Pop" "C" "Major" "Happy" 1 g_a)
    = value (generate_music "Pop" "C" "Major" "Happy" 1 g_b).
Proof.
  apply (generate_music_same_draws "Pop" "C" "Major" "Happy" 1 ["I"; "V"; "vi"; "IV"]);
    [reflexivity |].
  change (same_draws 17 g_a g_b).
  intros k Hk. unfold g_a, g_b. cbn [tape pos].
  destruct (Nat.ltb_spec (3 + k) 20) as [_ | ?]; lia.
Defined.

(** The five arguments do not fix the result: the same call under two
    states of the process-wide random source returns different notes. *)
Lemma arguments_do_not_fix_the_notes :
  value (generate_music "Pop" "C" "Major" "Happy" 1 g_up)
    ≠ value (generate_music "Pop" "C" "Major" "Happy" 1 g_down).
Proof. vm_compute. intros H. discriminate H. Qed.

(** * Further properties of the code *)

(** ** Tempo table *)

(** X1. [emotion_tempo] never raises: "Happy" gives 120, "Sad" 70,
    "Mysterious" 90, "Excited" 140, and every other string the default
    100. *)
Theorem emotion_tempo_values (emotion : string) :
  emotion_tempo emotion
    = if bool_decide (emotion = "Happy") then 120
      else if bool_decide (emotion = "Sad") then 70
      else if bool_decide (emotion = "Mysterious") then 90
      else if bool_decide (emotion = "Excited") then 140
      else 100.
Proof.
  unfold emotion_tempo.
  repeat (case_bool_decide; [by subst |]).
  unfold emotion_table.
  rewrite (not_elem_of_list_to_map_1 (M := gmap string)); [done |].
  simpl. intros Hin.
  repeat (apply elem_of_cons in Hin as [-> | Hin]); try done.
  by apply elem_of_nil in Hin.
Qed.

(** ** Chords against keys and scales *)

Lemma chord_scale_offsets (mode chord : string) (d : Z) :
  chord_scale mode !! chord = Some d → 0 ≤ d ≤ 10.
Proof.
  unfold chord_scale. case_bool_decide as Hm; intros H;
    apply elem_of_list_to_map_2 in H;
    repeat (apply elem_of_cons in H as [[= -> ->] | H]); try lia;
    by apply elem_of_nil in H.
Qed.

Lemma chord_offset_range (mode chord : string) :
  0 ≤ default 0 (chord_scale mode !! chord) ≤ 10.
Proof.
  destruct (chord_scale mode !! chord) as [d |] eqn:Hd; simpl; [| lia].
  by eapply chord_scale_offsets.
Qed.

(** X2. For a key of [KEYS], every chord symbol (known or not) and every mode
    give a triad [root, root + third, root + 7] with the third fixed by the
    mode alone (4 for "Major", 3 otherwise, whatever the degree) and the root
    between 60 and 81: the three pitches are valid MIDI pitches, never
    touched by the reduction modulo 128. *)
Theorem chord_to_notes_triad_range (chord key mode : string) :
  key ∈ KEYS →
  ∃ tonic root,
    PrettyMidi.note_name_to_number (key +:+ "4") = Ok tonic ∧
    root = tonic + default 0 (chord_scale mode !! chord) ∧
    60 ≤ root ≤ 81 ∧
    chord_to_notes chord key mode
      = Ok [root; root + (if bool_decide (mode = "Major") then 4 else 3); root + 7] ∧
    ∀ ns, chord_to_notes chord key mode = Ok ns → Forall (λ p, 60 ≤ p ≤ 88) ns.
Proof.
  intros Hkey. destruct (KEYS_note_number key Hkey) as (i & _ & Hi & Hnum).
  pose proof (chord_offset_range mode chord) as Hoff.
  exists (60 + Z.of_nat i), (60 + Z.of_nat i + default 0 (chord_scale mode !! chord)).
  split; [done |]. split; [done |]. split; [lia |].
  assert (Hv : chord_to_notes chord key mode
               = Ok [60 + Z.of_nat i + default 0 (chord_scale mode !! chord);
                     60 + Z.of_nat i + default 0 (chord_scale mode !! chord)
                       + (if bool_decide (mode = "Major") then 4 else 3);
                     60 + Z.of_nat i + default 0 (chord_scale mode !! chord) + 7]).
  { rewrite (chord_to_notes_value chord key mode _ Hnum).
    rewrite Z.mod_small by lia. unfold chord_intervals.
    case_bool_decide; simpl; by rewrite Z.add_0_r. }
  split; [exact Hv |].
  intros ns Hns. rewrite Hv in Hns. injection Hns as <-.
  case_bool_decide; repeat constructor; lia.
Qed.

Lemma chord_to_notes_triad_range_witness :
  ∃ tonic root,
    PrettyMidi.note_name_to_number ("G#" +:+ "4") = Ok tonic ∧
    root = tonic + default 0 (chord_scale "Major" !! "vi") ∧
    60 ≤ root ≤ 81 ∧
    chord_to_notes "vi" "G#" "Major"
      = Ok [root; root + (if bool_decide ("Major" = "Major") then 4 else 3); root + 7] ∧
    ∀ ns, chord_to_notes "vi" "G#" "Major" = Ok ns → Forall (λ p, 60 ≤ p ≤ 88) ns.
Proof. apply chord_to_notes_triad_range. unfold KEYS. set_solver. Defined.

(** The scale of a key of [KEYS], without the reduction modulo 128. *)
Lemma make_scale_unwrapped (key mode : string) :
  key ∈ KEYS →
  ∃ i : nat, (i < 12)%nat ∧
    PrettyMidi.note_name_to_number (key +:+ "4") = Ok (60 + Z.of_nat i) ∧
    make_scale key mode = Ok (map (λ x, 60 + Z.of_nat i + x) (mode_intervals mode)).
Proof.
  intros Hkey. destruct (KEYS_note_number key Hkey) as (i & _ & Hi & Hnum).
  exists i. split; [done |]. split; [done |].
  rewrite (make_scale_value key mode _ Hnum). f_equal.
  apply map_ext_Forall. unfold mode_intervals.
  case_bool_decide; repeat constructor; apply Z.mod_small; lia.
Qed.

(** X3. For a key of [KEYS] the triad of the tonic symbol ("I" in "Major",
    "i" otherwise), which is also the triad of every unknown symbol,
    consists of pitches of the scale [make_scale] returns for the same key
    and mode: degrees 1, 3 and 5 of that scale. *)
Theorem tonic_triad_in_scale (key mode : string) :
  key ∈ KEYS →
  ∃ triad scale,
    chord_to_notes (if bool_decide (mode = "Major") then "I" else "i") key mode = Ok triad ∧
    make_scale key mode = Ok scale ∧
    triad = [scale !!! 0%nat; scale !!! 2%nat; scale !!! 4%nat] ∧
    Forall (λ p, p ∈ scale) triad.
Proof.
  intros Hkey. destruct (make_scale_unwrapped key mode Hkey) as (i & Hi & Hnum & Hscale).
  fold (tonic_symbol mode).
  pose proof (chord_to_notes_value (tonic_symbol mode) key mode _ Hnum) as Hc.
  rewrite tonic_symbol_offset in Hc. simpl in Hc.
  rewrite Z.add_0_r, Z.mod_small in Hc by lia.
  do 2 eexists. split; [exact Hc |]. split; [exact Hscale |].
  unfold chord_intervals, mode_intervals.
  case_bool_decide; simpl; (split; [reflexivity |]);
    repeat constructor; set_solver.
Qed.

Lemma tonic_triad_in_scale_witness :
  ∃ triad scale,
    chord_to_notes (if bool_decide ("Minor" = "Major") then "I" else "i") "E" "Minor"
      = Ok triad ∧
    make_scale "E" "Minor" = Ok scale ∧
    triad = [scale !!! 0%nat; scale !!! 2%nat; scale !!! 4%nat] ∧
    Forall (λ p, p ∈ scale) triad.
Proof. apply tonic_triad_in_scale. unfold KEYS. set_solver. Defined.

(** ** A key that is not a note name *)

(** X4. When the key followed by "4" is not a note name, the error of
    [note_name_to_number] is what [make_scale], [chord_to_notes] and
    [generate_music] raise, for every other argument and every state of the
    random source: nothing is drawn and no default key is substituted. *)
Theorem invalid_key_raises (genre key mode emotion chord : string) (generations : Z)
    (g : RNG) (e : exn) :
  PrettyMidi.note_name_to_number (key +:+ "4") = Raise e →
  make_scale key mode = Raise e ∧
  chord_to_notes chord key mode = Raise e ∧
  generate_music genre key mode emotion generations g = Raise e.
Proof.
  intros Hk.
  assert (Hs : make_scale key mode = Raise e) by (unfold make_scale; by rewrite Hk).
  split; [exact Hs |]. split.
  - unfold chord_to_notes. by rewrite Hk.
  - unfold generate_music. unfold_M. by rewrite Hs.
Qed.

Lemma invalid_key_raises_witness :
  make_scale "H" "Major" = Raise ValueError ∧
  chord_to_notes "I" "H" "Major" = Raise ValueError ∧
  generate_music "Pop" "H" "Major" "Happy" 4 g0 = Raise ValueError.
Proof. apply invalid_key_raises. reflexivity. Defined.

(** ** More on the melody walk *)

Lemma py_getitem_nil {A} (i : Z) : py_getitem (@nil A) i = Raise IndexError.
Proof.
  unfold py_getitem. change (Z.of_nat (length (@nil A))) with 0. cbv zeta.
  generalize (if i <? 0 then 0 + i else i). intros j.
  destruct (Z.leb_spec 0 j), (Z.ltb_spec j 0); simpl; try reflexivity; lia.
Qed.

(** What a successful pass of the loop body did. *)
Lemma walk_step_inv (scale_notes : list Z) (p q : Z) (g g' : RNG) :
  walk_step scale_notes p g = Ok (q, g') →
  ∃ step, -2 ≤ step ≤ 2 ∧ g' = advance g ∧
          0 ≤ next_index scale_notes p step < Z.of_nat (length scale_notes) ∧
          scale_notes !! Z.to_nat (next_index scale_notes p step) = Some q.
Proof.
  intros Hw.
  destruct (random_choice_ok STEPS g) as (step & Hstep & Hin); [done |].
  assert (Hb : -2 ≤ step ≤ 2).
  { unfold STEPS in Hin. repeat (apply elem_of_cons in Hin as [-> | Hin]); try lia.
    by apply elem_of_nil in Hin. }
  destruct (decide (scale_notes = [])) as [-> | Hne].
  - unfold walk_step in Hw. unfold_M. rewrite Hstep, py_getitem_nil in Hw. done.
  - pose proof (next_index_range scale_notes p step Hne) as Hr.
    destruct (py_getitem_nonneg scale_notes _ Hr) as (x & Hx & Hlook).
    unfold walk_step in Hw. unfold_M. rewrite Hstep, Hx in Hw.
    injection Hw as <- <-. by exists step.
Qed.

(** A relation kept by every pass is kept along the whole melody. *)
Lemma evolve_loop_chained (R : Z → Z → Prop) (I : Z → Prop) (scale_notes : list Z) :
  (∀ p q g g', I p → walk_step scale_notes p g = Ok (q, g') → R p q ∧ I q) →
  ∀ (n : nat) (p : Z) (acc out : list Z) (g g' : RNG),
    I p →
    evolve_loop n scale_notes p acc g = Ok (out, g') →
    ∃ new, out = acc ++ new ∧ length new = n ∧ chained R p new.
Proof.
  intros Hstep. induction n as [| n IH]; intros p acc out g g' Hp Hrun.
  - simpl in Hrun. unfold_M. injection Hrun as <- <-.
    exists []. by rewrite app_nil_r.
  - simpl in Hrun. unfold_M.
    destruct (walk_step scale_notes p g) as [[q g1] | e] eqn:Hw; [| done].
    destruct (Hstep p q g g1 Hp Hw) as (HR & Hq).
    destruct (IH q (acc ++ [q]) out g1 g' Hq Hrun) as (new & -> & Hlen & Hch).
    exists (q :: new). rewrite <- app_assoc. simpl. by rewrite Hlen.
Qed.

(** X5. With an empty scale [evolve_melody] raises [ValueError] when [prev]
    is empty too (nothing to choose the cursor from), raises [IndexError]
    when [prev] is not empty and at least one pitch is asked for (the
    clamped index is [-1]), and returns the empty melody otherwise. *)
Theorem evolve_melody_empty_scale (prev : list Z) (L : Z) (g : RNG) :
  evolve_melody prev [] L g
    = match prev with
      | [] => Raise ValueError
      | _ :: _ => if 0 <? L then Raise IndexError else Ok ([], g)
      end.
Proof.
  unfold evolve_melody. unfold_M.
  destruct prev as [| p0 prev']; [reflexivity |].
  destruct (last (p0 :: prev')) as [p |] eqn:Hlast.
  2:{ by apply last_None in Hlast. }
  destruct (Z.ltb_spec 0 L) as [Hpos | Hle].
  - unfold range_len. destruct (Z.to_nat L) as [| n] eqn:Hn; [lia |].
    simpl. unfold_M.
    destruct (walk_step [] p g) as [[q g1] | e] eqn:Hw.
    + apply walk_step_inv in Hw as (step & _ & _ & Hr & _). simpl in Hr. lia.
    + unfold walk_step in Hw. unfold_M.
      destruct (random_choice_ok STEPS g) as (step & Hstep & _); [done |].
      rewrite Hstep, py_getitem_nil in Hw. congruence.
  - by rewrite (range_len_nonpos L Hle).
Qed.

Lemma cursor_index_located (scale_notes : list Z) (p : Z) :
  p ∈ scale_notes →
  scale_notes !! Z.to_nat (cursor_index scale_notes p) = Some p.
Proof.
  intros Hin. unfold cursor_index.
  destruct (py_index p scale_notes) as [i |] eqn:Hi.
  - rewrite Nat2Z.id. by apply py_index_lookup.
  - by apply py_index_None in Hi.
Qed.

Lemma evolve_melody_inv (prev scale_notes : list Z) (L : Z) (g g' : RNG) (out : list Z) :
  evolve_melody prev scale_notes L g = Ok (out, g') →
  ∃ p0 g1,
    (last prev = Some p0 ∧ g1 = g ∨ prev = [] ∧ p0 ∈ scale_notes ∧ g1 = advance g) ∧
    evolve_loop (range_len L) scale_notes p0 [] g1 = Ok (out, g').
Proof.
  unfold evolve_melody. unfold_M. intros Hrun.
  destruct (last prev) as [p |] eqn:Hlast.
  - exists p, g. split; [by left | done].
  - apply last_None in Hlast. subst prev.
    destruct (random_choice scale_notes g) as [[p g1] | e] eqn:Hc; [| done].
    destruct (decide (scale_notes = [])) as [-> | Hne]; [done |].
    destruct (random_choice_ok scale_notes g Hne) as (x & Hx & Hin).
    rewrite Hx in Hc. injection Hc as <- <-.
    exists x, (advance g). split; [by right | done].
Qed.

(** X6. In a scale without repeated pitches, every pitch the walk emits is
    at most two scale positions away from the pitch before it (the first
    one from the cursor the walk starts with): no jump across the scale. *)
Theorem evolve_melody_moves_at_most_two_positions (prev scale_notes out : list Z)
    (L : Z) (g g' : RNG) :
  NoDup scale_notes →
  evolve_melody prev scale_notes L g = Ok (out, g') →
  ∃ p0, (last prev = Some p0 ∨ prev = [] ∧ p0 ∈ scale_notes) ∧
        chained (λ p q, -2 ≤ cursor_index scale_notes q - cursor_index scale_notes p ≤ 2)
                p0 out.
Proof.
  intros Hnd Hrun.
  apply evolve_melody_inv in Hrun as (p0 & g1 & Hp0 & Hloop).
  exists p0. split; [destruct Hp0 as [[? _] | (? & ? & _)]; auto |].
  destruct (evolve_loop_chained
              (λ p q, -2 ≤ cursor_index scale_notes q - cursor_index scale_notes p ≤ 2)
              (λ _, True) scale_notes) with (n := range_len L) (p := p0) (acc := @nil Z)
              (out := out) (g := g1) (g' := g') as (new & -> & _ & Hch); try done.
  intros p q h h' _ Hw. split; [| done].
  apply walk_step_inv in Hw as (step & Hstep & _ & Hr & Hq).
  rewrite (cursor_index_NoDup scale_notes _ q Hnd Hq), Z2Nat.id by lia.
  assert (Hne : scale_notes ≠ []) by (intros ->; simpl in Hr; lia).
  pose proof (cursor_index_range scale_notes p Hne).
  unfold next_index in *. lia.
Qed.

Lemma evolve_melody_moves_at_most_two_positions_witness :
  ∃ out g' p0,
    evolve_melody [62] [60; 62; 64; 65; 67] 6 g0 = Ok (out, g') ∧
    (last [62] = Some p0 ∨ [62] = [] ∧ p0 ∈ [60; 62; 64; 65; 67]) ∧
    chained (λ p q, -2 ≤ cursor_index [60; 62; 64; 65; 67] q
                         - cursor_index [60; 62; 64; 65; 67] p ≤ 2) p0 out.
Proof.
  eexists. eexists.
  destruct (evolve_melody_moves_at_most_two_positions
              [62] [60; 62; 64; 65; 67] _ 6 g0 _ ltac:(compute_done)
              eq_refl) as (p0 & Hp0 & Hch).
  exists p0. split; [reflexivity | by split].
Defined.

(** X7. When the last pitch of [prev] is not a pitch of the scale, the walk
    restarts from the bottom of the scale: the first pitch emitted is one of
    the first three pitches of the scale. *)
Theorem evolve_melody_foreign_cursor (prev scale_notes : list Z) (p : Z) (L : Z) (g : RNG) :
  scale_notes ≠ [] →
  last prev = Some p →
  p ∉ scale_notes →
  0 < L →
  ∃ q rest g',
    evolve_melody prev scale_notes L g = Ok (q :: rest, g') ∧
    q ∈ take 3 scale_notes.
Proof.
  intros Hne Hlast Hout HL.
  destruct (evolve_melody_run prev scale_notes L g Hne) as (out & Hrun & Hlen & _).
  pose proof Hrun as Hrun'.
  apply evolve_melody_inv in Hrun' as (p0 & g1 & Hp0 & Hloop).
  destruct Hp0 as [(Hp0 & ->) | (-> & _)]; [| done].
  assert (p0 = p) as -> by congruence.
  unfold range_len in *. destruct (Z.to_nat L) as [| n] eqn:Hn; [lia |].
  simpl in Hloop. unfold_M.
  destruct (walk_step scale_notes p g) as [[q h] | e] eqn:Hw; [| done].
  destruct (evolve_loop_chained (λ _ _, True) (λ _, True) scale_notes) with
    (n := n) (p := q) (acc := [q]) (out := out) (g := h)
    (g' := mkRNG (tape g) (pos g + seed_draws prev + S n)) as (new & -> & _ & _); try done.
  exists q, new. eexists. split; [exact Hrun |].
  apply walk_step_inv in Hw as (step & Hstep & _ & Hr & Hq).
  assert (Hc : cursor_index scale_notes p = 0).
  { unfold cursor_index. apply py_index_None in Hout. by rewrite Hout. }
  unfold next_index in Hr, Hq. rewrite Hc in Hr, Hq.
  apply list_elem_of_lookup. exists (Z.to_nat (Z.min (Z.max (0 + step) 0)
                                                (Z.of_nat (length scale_notes) - 1))).
  rewrite lookup_take_lt by lia. exact Hq.
Qed.

Lemma evolve_melody_foreign_cursor_witness :
  ∃ q rest g',
    evolve_melody [61] [60; 62; 64; 65; 67] 2 g0 = Ok (q :: rest, g') ∧
    q ∈ take 3 [60; 62; 64; 65; 67].
Proof.
  apply (evolve_melody_foreign_cursor [61] [60; 62; 64; 65; 67] 61 2 g0);
    [done | reflexivity | compute_done | lia].
Defined.

(** *** Batches *)

Lemma evolve_loop_acc (scale_notes : list Z) (n : nat) :
  ∀ (p : Z) (acc : list Z) (g : RNG),
    evolve_loop n scale_notes p acc g
      = match evolve_loop n scale_notes p [] g with
        | Ok (m, g') => Ok (acc ++ m, g')
        | Raise e => Raise e
        end.
Proof.
  induction n as [| n IH]; intros p acc g.
  - simpl. unfold_M. by rewrite app_nil_r.
  - simpl. unfold_M. destruct (walk_step scale_notes p g) as [[x h] | e]; [| done].
    rewrite (IH x (acc ++ [x])), (IH x ([] ++ [x])).
    destruct (evolve_loop n scale_notes x [] h) as [[m g'] | e]; [| done].
    by rewrite <- app_assoc.
Qed.

Lemma evolve_loop_split (scale_notes : list Z) (n2 : nat) :
  ∀ (n1 : nat) (p : Z) (g : RNG),
    evolve_loop (n1 + n2) scale_notes p [] g
      = match evolve_loop n1 scale_notes p [] g with
        | Ok (m1, g1) =>
            match evolve_loop n2 scale_notes (default p (last m1)) [] g1 with
            | Ok (m2, g2) => Ok (m1 ++ m2, g2)
            | Raise e => Raise e
            end
        | Raise e => Raise e
        end.
Proof.
  induction n1 as [| n1 IH]; intros p g.
  - simpl. unfold_M. by destruct (evolve_loop n2 scale_notes p [] g) as [[m2 g2] | e].
  - simpl. unfold_M. destruct (walk_step scale_notes p g) as [[x h] | e]; [| done].
    rewrite (evolve_loop_acc scale_notes (n1 + n2) x ([] ++ [x])).
    rewrite (evolve_loop_acc scale_notes n1 x ([] ++ [x])).
    rewrite IH.
    destruct (evolve_loop n1 scale_notes x [] h) as [[m1 g1] | e]; [| done].
    assert (Hlast : default p (last (([] ++ [x]) ++ m1)) = default x (last m1)).
    { simpl. destruct m1 as [| y m1]; [done |]. rewrite last_cons_cons.
      destruct (last (y :: m1)) as [z |] eqn:Hz; [done |].
      by apply last_None in Hz. }
    rewrite Hlast.
    destruct (evolve_loop n2 scale_notes (default x (last m1)) [] g1) as [[m2 g2] | e];
      [| done].
    by rewrite <- app_assoc.
Qed.

Lemma evolve_melody_from_cursor (prev scale_notes : list Z) (p : Z) (L : Z) (g : RNG) :
  last prev = Some p →
  evolve_melody prev scale_notes L g = evolve_loop (range_len L) scale_notes p [] g.
Proof. intros Hlast. unfold evolve_melody. by rewrite Hlast. Qed.

Lemma evolve_melody_nil (scale_notes : list Z) (L : Z) (g : RNG) :
  evolve_melody [] scale_notes L g
    = match random_choice scale_notes g with
      | Ok (p, h) => evolve_loop (range_len L) scale_notes p [] h
      | Raise e => Raise e
      end.
Proof. reflexivity. Qed.

Lemma evolve_loop_then_melody (scale_notes : list Z) (n1 : nat) (L2 : Z) (p : Z) (h : RNG) :
  (0 < n1)%nat →
  evolve_loop (n1 + range_len L2) scale_notes p [] h
    = match evolve_loop n1 scale_notes p [] h with
      | Ok (m1, g1) =>
          match evolve_melody m1 scale_notes L2 g1 with
          | Ok (m2, g2) => Ok (m1 ++ m2, g2)
          | Raise e => Raise e
          end
      | Raise e => Raise e
      end.
Proof.
  intros Hn1. rewrite evolve_loop_split.
  destruct (evolve_loop n1 scale_notes p [] h) as [[m1 g1] | e] eqn:Hm1; [| done].
  destruct (evolve_loop_chained (λ _ _, True) (λ _, True) scale_notes) with
    (n := n1) (p := p) (acc := @nil Z) (out := m1) (g := h) (g' := g1)
    as (new & -> & Hn & _); try done.
  simpl. destruct (last new) as [q |] eqn:Hlast.
  - by rewrite (evolve_melody_from_cursor new scale_notes q L2 g1 Hlast).
  - apply last_None in Hlast. subst new. simpl in Hn. lia.
Qed.

(** X8. Asking for [L1 + L2] pitches at once ([L1 > 0], [L2 >= 0]) is the
    same, exceptions included, as asking for [L1] pitches and then for [L2]
    more with the first batch as [prev]: the melodies and the use of the
    random source coincide.  This is how [generate_music] chains its batches
    of four. *)
Theorem evolve_melody_in_batches (prev scale_notes : list Z) (L1 L2 : Z) (g : RNG) :
  0 < L1 → 0 ≤ L2 →
  evolve_melody prev scale_notes (L1 + L2) g
    = (m1 ← evolve_melody prev scale_notes L1;
       m2 ← evolve_melody m1 scale_notes L2;
       mret (m1 ++ m2)) g.
Proof.
  intros H1 H2.
  assert (Hlen : range_len (L1 + L2) = (range_len L1 + range_len L2)%nat)
    by (unfold range_len; lia).
  assert (Hpos : (0 < range_len L1)%nat) by (unfold range_len; lia).
  unfold mbind, M_bind, bind, mret, M_ret, ret.
  destruct (last prev) as [p |] eqn:Hlast.
  - rewrite !(evolve_melody_from_cursor prev scale_notes p _ g Hlast), Hlen.
    by apply evolve_loop_then_melody.
  - apply last_None in Hlast. subst prev. rewrite !evolve_melody_nil, Hlen.
    destruct (random_choice scale_notes g) as [[p h] | e]; [| done].
    by apply evolve_loop_then_melody.
Qed.

Lemma evolve_melody_in_batches_witness :
  evolve_melody [64] [60; 62; 64; 65; 67] (4 + 4) g0
    = (m1 ← evolve_melody [64] [60; 62; 64; 65; 67] 4;
       m2 ← evolve_melody m1 [60; 62; 64; 65; 67] 4;
       mret (m1 ++ m2)) g0.
Proof. apply evolve_melody_in_batches; lia. Defined.

(** *** Semitone distance in the scales of [make_scale] *)

Lemma scale_two_positions (T : Z) (mode : string) (i j : nat) (a b : Z) :
  map (λ x, T + x) (mode_intervals mode) !! i = Some a →
  map (λ x, T + x) (mode_intervals mode) !! j = Some b →
  (i ≤ j + 2)%nat → (j ≤ i + 2)%nat →
  -4 ≤ b - a ≤ 4.
Proof.
  unfold mode_intervals.
  case_bool_decide;
    destruct i as [| [| [| [| [| [| [| i]]]]]]];
    destruct j as [| [| [| [| [| [| [| j]]]]]]];
    simpl; intros Ha Hb Hij Hji; simplify_eq; lia.
Qed.

Lemma scale_walk_semitones (i : nat) (mode : string) (prev out : list Z) (p : Z)
    (L : Z) (g g' : RNG) :
  let scale_notes := map (λ x, 60 + Z.of_nat i + x) (mode_intervals mode) in
  last prev = Some p →
  p ∈ scale_notes →
  evolve_melody prev scale_notes L g = Ok (out, g') →
  chained (λ a b, -4 ≤ b - a ≤ 4) p out.
Proof.
  intros scale_notes Hlast Hp Hrun.
  assert (Hne : scale_notes ≠ [])
    by (intros Heq; rewrite Heq in Hp; by apply elem_of_nil in Hp).
  apply evolve_melody_inv in Hrun as (p0 & g1 & Hp0 & Hloop).
  destruct Hp0 as [(Hp0 & ->) | (-> & _)]; [| done].
  assert (p0 = p) as -> by congruence.
  destruct (evolve_loop_chained (λ a b, -4 ≤ b - a ≤ 4) (λ a, a ∈ scale_notes) scale_notes)
    with (n := range_len L) (p := p) (acc := @nil Z) (out := out) (g := g) (g' := g')
    as (new & -> & _ & Hch); try done.
  intros a b h h' Ha Hw.
  apply walk_step_inv in Hw as (step & Hstep & _ & Hr & Hb).
  split; [| by eapply list_elem_of_lookup_2].
  pose proof (cursor_index_located scale_notes a Ha) as Hloc.
  pose proof (cursor_index_range scale_notes a Hne) as Hc.
  apply (scale_two_positions (60 + Z.of_nat i) mode _ _ a b Hloc Hb);
    unfold next_index in *; lia.
Qed.

(** X9. In the scale [make_scale] returns for a key of [KEYS], a walk that
    starts from a pitch of the scale never moves by more than 4 semitones
    from one pitch to the next. *)
Theorem evolve_melody_within_four_semitones (key mode : string)
    (prev scale_notes : list Z) (p : Z) (L : Z) (g : RNG) :
  key ∈ KEYS →
  make_scale key mode = Ok scale_notes →
  last prev = Some p →
  p ∈ scale_notes →
  ∃ out g',
    evolve_melody prev scale_notes L g = Ok (out, g') ∧
    chained (λ a b, -4 ≤ b - a ≤ 4) p out.
Proof.
  intros Hkey Hscale Hlast Hp.
  destruct (make_scale_unwrapped key mode Hkey) as (i & _ & _ & Hs).
  rewrite Hs in Hscale. injection Hscale as <-.
  assert (Hne : map (λ x, 60 + Z.of_nat i + x) (mode_intervals mode) ≠ [])
    by (intros Heq; rewrite Heq in Hp; by apply elem_of_nil in Hp).
  destruct (evolve_melody_run prev _ L g Hne) as (out & Hrun & _).
  exists out. eexists. split; [exact Hrun |].
  by eapply scale_walk_semitones.
Qed.

Lemma evolve_melody_within_four_semitones_witness :
  ∃ out g',
    evolve_melody [69] [62; 64; 65; 67; 69; 70; 72] 8 g0 = Ok (out, g') ∧
    chained (λ a b, -4 ≤ b - a ≤ 4) 69 out.
Proof.
  apply (evolve_melody_within_four_semitones "D" "Minor");
    [unfold KEYS; set_solver | reflexivity | reflexivity | set_solver].
Defined.

(** ** More on the composition driver *)

(** *** Invariants of the loops *)

Lemma for_each_inv {A S} (body : S → A → M S) (I : S → Prop) :
  (∀ st x g st' g', body st x g = Ok (st', g') → I st → I st') →
  ∀ l st g st' g', for_each body l st g = Ok (st', g') → I st → I st'.
Proof.
  intros Hbody. induction l as [| x l IH]; intros st g st' g' Hrun Hst.
  - simpl in Hrun. unfold_M. by injection Hrun as <- <-.
  - simpl in Hrun. unfold_M.
    destruct (body st x g) as [[st1 g1] | e] eqn:Hb; [| done].
    eapply IH; [exact Hrun |]. by eapply Hbody.
Qed.

Lemma for_range_inv {S} (body : S → M S) (I : S → Prop) :
  (∀ st g st' g', body st g = Ok (st', g') → I st → I st') →
  ∀ n st g st' g', for_range n body st g = Ok (st', g') → I st → I st'.
Proof.
  intros Hbody. induction n as [| n IH]; intros st g st' g' Hrun Hst.
  - simpl in Hrun. unfold_M. by injection Hrun as <- <-.
  - simpl in Hrun. unfold_M.
    destruct (body st g) as [[st1 g1] | e] eqn:Hb; [| done].
    eapply IH; [exact Hrun |]. by eapply Hbody.
Qed.

Lemma melody_points_app (l1 l2 : list Note) :
  melody_points (l1 ++ l2) = melody_points l1 ++ melody_points l2.
Proof. unfold melody_points. by rewrite filter_app, map_app. Qed.

Lemma melody_points_chord_notes (t : float) (triad : list Z) :
  melody_points (map (chord_note t) triad) = [].
Proof.
  unfold melody_points. rewrite (filter_velocity_none 100 70); [done | done |].
  apply Forall_forall. intros c Hc.
  by apply list_elem_of_In, in_map_iff in Hc as (n & <- & _).
Qed.

Lemma melody_points_melody_notes (t : float) (mel : list Z) :
  melody_points (imap (melody_note t) mel) = imap (plot_point t) mel.
Proof.
  unfold melody_points. rewrite filter_velocity_all.
  - apply list_eq. intros i.
    change (map (λ n, (start n, pitch n)) (imap (melody_note t) mel))
      with ((λ n, (start n, pitch n)) <$> imap (melody_note t) mel).
    rewrite list_lookup_fmap, !list_lookup_imap. by destruct (mel !! i).
  - apply Forall_forall. intros m Hm. apply list_elem_of_lookup in Hm as (i & Hi).
    by apply list_lookup_imap_Some in Hi as (n & _ & ->).
Qed.

Lemma chord_body_plot (key mode : string) (scale_notes : list Z) (st st' : driver)
    (chord : string) (g g' : RNG) :
  chord_body key mode scale_notes st chord g = Ok (st', g') →
  notes_plot st = melody_points (inst_notes st) →
  notes_plot st' = melody_points (inst_notes st').
Proof.
  unfold chord_body. unfold_M. intros Hrun Hinv.
  destruct (chord_to_notes chord key mode) as [triad | e]; [| done].
  destruct (evolve_melody (melody st) scale_notes 4 g) as [[mel h] | e]; [| done].
  injection Hrun as <- <-. simpl.
  rewrite !melody_points_app, melody_points_chord_notes, melody_points_melody_notes.
  by rewrite Hinv, app_nil_r.
Qed.

(** X10. Whenever [generate_music] returns, its result holds one instrument
    (program 0), the tempo of the MIDI object is the tempo returned, which
    is [emotion_tempo emotion], and the plot data are exactly the melody
    notes of the instrument, in order, as (start, pitch) pairs: chords are
    not plotted and no melody note is missing. *)
Theorem generate_music_plot_is_melody (genre key mode emotion : string) (generations : Z)
    (g g' : RNG) (midi : PrettyMIDI) (plot : list (float * Z)) (tempo : Z) :
  generate_music genre key mode emotion generations g = Ok (midi, plot, tempo, g') →
  ∃ out,
    midi = mkMIDI tempo [mkInstrument 0 out] ∧
    tempo = emotion_tempo emotion ∧
    plot = melody_points out ∧
    plot = map (λ n, (start n, pitch n)) (filter (λ n, velocity n = 100) out).
Proof.
  unfold generate_music, compose. unfold_M. intros Hrun.
  destruct (make_scale key mode) as [scale_notes | e]; [| done].
  destruct (chord_prog_of genre) as [prog | e]; [| done].
  destruct (random_choice scale_notes g) as [[seed g1] | e]; [| done].
  match type of Hrun with
  | match for_range ?n ?body ?st0 g1 with _ => _ end = _ =>
      destruct (for_range n body st0 g1) as [[st h] | e] eqn:Hloop; [| done];
      assert (Hinv : notes_plot st = melody_points (inst_notes st))
  end.
  { eapply (for_range_inv _ (λ st, notes_plot st = melody_points (inst_notes st)));
      [| exact Hloop | reflexivity].
    intros st1 h1 st2 h2.
    apply (for_each_inv _ (λ st, notes_plot st = melody_points (inst_notes st))).
    intros st3 x h3 st4 h4. apply chord_body_plot. }
  injection Hrun as <- <- <- <-.
  exists (inst_notes st). split; [done |]. split; [done |]. by split.
Qed.

Lemma generate_music_plot_is_melody_witness :
  ∃ midi plot tempo g' out,
    generate_music "Jazz" "A" "Minor" "Sad" 1 g0 = Ok (midi, plot, tempo, g') ∧
    midi = mkMIDI tempo [mkInstrument 0 out] ∧
    tempo = emotion_tempo "Sad" ∧
    plot = melody_points out ∧
    plot = map (λ n, (start n, pitch n)) (filter (λ n, velocity n = 100) out).
Proof.
  do 4 eexists.
  destruct (generate_music_plot_is_melody "Jazz" "A" "Minor" "Sad" 1 g0 _ _ _ _ eq_refl)
    as (out & H).
  exists out. split; [reflexivity | exact H].
Defined.

(** *** Size of a run and use of the random source *)

(** X11. For a key of [KEYS], any genre and any number of generations, the
    instrument holds 7 notes per chord processed, that is
    [7 * max(generations, 0) * len(progression)] notes: 3 chord notes
    (velocity 70) and 4 melody notes (velocity 100) per chord. *)
Theorem generate_music_note_count (genre key mode emotion : string) (generations : Z)
    (g : RNG) :
  key ∈ KEYS →
  ∃ prog out plot tempo g',
    chord_prog_of genre = Ok prog ∧
    generate_music genre key mode emotion generations g
      = Ok (mkMIDI tempo [mkInstrument 0 out], plot, tempo, g') ∧
    length out = (7 * (Z.to_nat generations * length prog))%nat ∧
    length (filter (λ n, velocity n = 70) out)
      = (3 * (Z.to_nat generations * length prog))%nat ∧
    length (filter (λ n, velocity n = 100) out)
      = (4 * (Z.to_nat generations * length prog))%nat.
Proof.
  intros Hkey.
  destruct (generate_music_run genre key mode emotion generations g Hkey)
    as (prog & scale_notes & seed & out & plot & last_melody
        & Hprog & _ & _ & Hrun & Hem).
  exists prog, out, plot, (emotion_tempo emotion). eexists.
  split; [done |]. split; [exact Hrun |].
  pose proof (emitted_length _ _ _ _ _ _ _ _ _ _ Hem) as Hlen.
  pose proof (emitted_velocity_counts _ _ _ _ _ _ _ _ _ _ Hem) as (H70 & H100).
  rewrite length_concat_replicate in Hlen, H70, H100. by unfold range_len in *.
Qed.

Lemma generate_music_note_count_witness :
  ∃ prog out plot tempo g',
    chord_prog_of "Classical" = Ok prog ∧
    generate_music "Classical" "F" "Major" "Mysterious" 3 g0
      = Ok (mkMIDI tempo [mkInstrument 0 out], plot, tempo, g') ∧
    length out = (7 * (Z.to_nat 3 * length prog))%nat ∧
    length (filter (λ n, velocity n = 70) out) = (3 * (Z.to_nat 3 * length prog))%nat ∧
    length (filter (λ n, velocity n = 100) out) = (4 * (Z.to_nat 3 * length prog))%nat.
Proof. apply generate_music_note_count. unfold KEYS. set_solver. Defined.

(** X12. For a key of [KEYS], a run takes exactly
    [1 + 4 * max(generations, 0) * len(progression)] draws from the random
    source (one for the seed pitch, four per chord) and leaves the source
    otherwise as it found it. *)
Theorem generate_music_draws (genre key mode emotion : string) (generations : Z)
    (g : RNG) :
  key ∈ KEYS →
  ∃ prog result,
    chord_prog_of genre = Ok prog ∧
    generate_music genre key mode emotion generations g
      = Ok (result,
            mkRNG (tape g) (pos g + 1 + 4 * (Z.to_nat generations * length prog))).
Proof.
  intros Hkey.
  destruct (generate_music_run genre key mode emotion generations g Hkey)
    as (prog & scale_notes & seed & out & plot & last_melody
        & Hprog & _ & _ & Hrun & _).
  exists prog. eexists. split; [done |].
  rewrite length_concat_replicate in Hrun. exact Hrun.
Qed.

Lemma generate_music_draws_witness :
  ∃ prog result,
    chord_prog_of "Rock" = Ok prog ∧
    generate_music "Rock" "A#" "Minor" "Excited" 2 g0
      = Ok (result, mkRNG (tape g0) (pos g0 + 1 + 4 * (Z.to_nat 2 * length prog))).
Proof. apply generate_music_draws. unfold KEYS. set_solver. Defined.

(** *** Times *)

(** X13. For a key of [KEYS] and a run of at most [CHECKED_CHORDS] chords,
    every note lies inside the second of its chord: the note at position
    [k] of the instrument (chord number [k / 7], counted from 0) starts at
    or after [k / 7] seconds, ends strictly after it starts, and ends no
    later than [k / 7 + 1] seconds, all three in binary64 comparison of the
    stored values. *)
Theorem generate_music_note_times (genre key mode emotion : string) (generations : Z)
    (prog : list string) (g : RNG) :
  key ∈ KEYS →
  chord_prog_of genre = Ok prog →
  Z.of_nat (Z.to_nat generations * length prog) ≤ CHECKED_CHORDS →
  ∃ out plot tempo g',
    generate_music genre key mode emotion generations g
      = Ok (mkMIDI tempo [mkInstrument 0 out], plot, tempo, g') ∧
    ∀ (k : nat) (n : Note), out !! k = Some n →
      (float_of_int (Z.of_nat k / 7) <=? start n)%float = true ∧
      (start n <? end_ n)%float = true ∧
      (end_ n <=? float_of_int (Z.of_nat k / 7 + 1))%float = true.
Proof.
  intros Hkey Hprog Hn.
  destruct (generate_music_run genre key mode emotion generations g Hkey)
    as (prog' & scale_notes & seed & out & plot & last_melody
        & Hprog' & _ & _ & Hrun & Hem).
  assert (prog' = prog) as -> by congruence.
  exists out, plot, (emotion_tempo emotion). eexists.
  split; [exact Hrun |].
  intros k n Hk.
  assert (Hw : within_second (Z.of_nat k / 7) (note_times n) = true).
  { eapply emitted_within_seconds; [exact Hem | | exact Hk].
    rewrite length_concat_replicate. by unfold range_len. }
  unfold within_second, note_times in Hw. simpl in Hw.
  apply andb_true_iff in Hw as (Hw & He). by apply andb_true_iff in Hw as (Hs & Hd).
Qed.

Lemma generate_music_note_times_witness :
  ∃ out plot tempo g',
    generate_music "Pop" "D#" "Major" "Happy" 12 g0
      = Ok (mkMIDI tempo [mkInstrument 0 out], plot, tempo, g') ∧
    ∀ (k : nat) (n : Note), out !! k = Some n →
      (float_of_int (Z.of_nat k / 7) <=? start n)%float = true ∧
      (start n <? end_ n)%float = true ∧
      (end_ n <=? float_of_int (Z.of_nat k / 7 + 1))%float = true.
Proof.
  apply (generate_music_note_times "Pop" "D#" "Major" "Happy" 12 ["I"; "V"; "vi"; "IV"]);
    [unfold KEYS; set_solver | reflexivity | by vm_compute].
Defined.

(** *** Pitches of a run *)

Lemma chained_Forall {A} (P : A → Prop) (p : A) (l : list A) :
  chained (λ _ q, P q) p l → Forall P l.
Proof.
  revert p. induction l as [| q l IH]; intros p; simpl; [constructor |].
  intros (Hq & Hl). constructor; [done | by eapply IH].
Qed.

(** Whatever [evolve_melody] returns is made of pitches of the scale. *)
Lemma evolve_melody_in_scale (prev scale_notes out : list Z) (L : Z) (g g' : RNG) :
  evolve_melody prev scale_notes L g = Ok (out, g') →
  Forall (λ p, p ∈ scale_notes) out.
Proof.
  intros Hrun. apply evolve_melody_inv in Hrun as (p0 & g1 & _ & Hloop).
  destruct (evolve_loop_chained (λ _ q, q ∈ scale_notes) (λ _, True) scale_notes)
    with (n := range_len L) (p := p0) (acc := @nil Z) (out := out) (g := g1) (g' := g')
    as (new & -> & _ & Hch); try done.
  - intros p q h h' _ Hw. split; [| done].
    apply walk_step_inv in Hw as (step & _ & _ & _ & Hq).
    by eapply list_elem_of_lookup_2.
  - simpl. by eapply chained_Forall.
Qed.

Lemma emitted_pitches key mode scale_notes (Pc Pm : Z → Prop) t prev g chords out prev' g' :
  emitted key mode scale_notes t prev g chords out prev' g' →
  Forall (λ c, ∀ triad, chord_to_notes c key mode = Ok triad → Forall Pc triad) chords →
  (∀ p, p ∈ scale_notes → Pm p) →
  Forall (λ n, (velocity n = 70 ∧ Pc (pitch n)) ∨
               (velocity n = 100 ∧ pitch n ∈ scale_notes ∧ Pm (pitch n))) out.
Proof.
  intros Hem Hchords Hscale.
  induction Hem as [| t prev g chord chords triad mel g1 cn mn rest prev' g'
                      Htriad Hev Hcn Hmn _ IH]; [constructor |].
  apply Forall_cons in Hchords as (Hchord & Hchords).
  rewrite !Forall_app. split; [| split; [| by apply IH]].
  - pose proof (chord_part_velocity _ _ _ Hcn) as Hv.
    destruct Hcn as (_ & Hp & _).
    specialize (Hchord triad Htriad). rewrite <- Hp in Hchord.
    apply Forall_forall. intros c Hc. left.
    rewrite Forall_forall in Hv. split; [by apply Hv |].
    rewrite Forall_forall in Hchord. apply Hchord.
    apply list_elem_of_In, in_map, list_elem_of_In. exact Hc.
  - pose proof (melody_part_velocity _ _ _ Hmn) as Hv.
    destruct Hmn as (_ & Hp & _).
    pose proof (evolve_melody_in_scale _ _ _ _ _ _ Hev) as Hin. rewrite <- Hp in Hin.
    apply Forall_forall. intros m Hm. right.
    rewrite Forall_forall in Hv. split; [by apply Hv |].
    rewrite Forall_forall in Hin.
    assert (pitch m ∈ scale_notes).
    { apply Hin. apply list_elem_of_In, in_map, list_elem_of_In. exact Hm. }
    split; [done | by apply Hscale].
Qed.

Lemma chord_to_notes_pitch_bounds (chord key mode : string) (triad : list Z) :
  key ∈ KEYS →
  chord_to_notes chord key mode = Ok triad →
  Forall (λ p, 60 ≤ p ≤ 88) triad.
Proof.
  intros Hkey Hc. destruct (KEYS_note_number key Hkey) as (i & _ & Hi & Hnum).
  rewrite (chord_to_notes_value chord key mode _ Hnum) in Hc. injection Hc as <-.
  pose proof (chord_offset_range mode chord) as Hoff.
  rewrite Z.mod_small by lia. unfold chord_intervals.
  case_bool_decide; repeat constructor; lia.
Qed.

(** X14. For a key of [KEYS], every note of a run is a valid MIDI note:
    chord notes have velocity 70 and a pitch between 60 and 88, melody notes
    have velocity 100 and a pitch of the scale, between 60 and 82. *)
Theorem generate_music_valid_midi_notes (genre key mode emotion : string)
    (generations : Z) (g : RNG) :
  key ∈ KEYS →
  ∃ scale_notes out plot tempo g',
    make_scale key mode = Ok scale_notes ∧
    generate_music genre key mode emotion generations g
      = Ok (mkMIDI tempo [mkInstrument 0 out], plot, tempo, g') ∧
    Forall (λ n, (velocity n = 70 ∧ 60 ≤ pitch n ≤ 88) ∨
                 (velocity n = 100 ∧ pitch n ∈ scale_notes ∧ 60 ≤ pitch n ≤ 82)) out.
Proof.
  intros Hkey.
  destruct (generate_music_run genre key mode emotion generations g Hkey)
    as (prog & scale_notes & seed & out & plot & last_melody
        & Hprog & Hscale & _ & Hrun & Hem).
  exists scale_notes, out, plot, (emotion_tempo emotion). eexists.
  split; [done |]. split; [exact Hrun |].
  apply (emitted_pitches key mode scale_notes (λ p, 60 ≤ p ≤ 88) (λ p, 60 ≤ p ≤ 82)
           _ _ _ _ _ _ _ Hem).
  - apply Forall_forall. intros c _ triad Ht. by eapply chord_to_notes_pitch_bounds.
  - destruct (make_scale_unwrapped key mode Hkey) as (i & Hi & _ & Hs).
    rewrite Hs in Hscale. injection Hscale as <-.
    intros p Hp. apply list_elem_of_In, in_map_iff in Hp as (x & <- & Hx).
    apply list_elem_of_In in Hx. unfold mode_intervals in Hx.
    case_bool_decide;
      repeat (apply elem_of_cons in Hx as [-> | Hx]); try lia;
      by apply elem_of_nil in Hx.
Qed.

Lemma generate_music_valid_midi_notes_witness :
  ∃ scale_notes out plot tempo g',
    make_scale "B" "Minor" = Ok scale_notes ∧
    generate_music "Jazz" "B" "Minor" "Sad" 4 g0
      = Ok (mkMIDI tempo [mkInstrument 0 out], plot, tempo, g') ∧
    Forall (λ n, (velocity n = 70 ∧ 60 ≤ pitch n ≤ 88) ∨
                 (velocity n = 100 ∧ pitch n ∈ scale_notes ∧ 60 ≤ pitch n ≤ 82)) out.
Proof. apply generate_music_valid_midi_notes. unfold KEYS. set_solver. Defined.

(** X15. In a mode other than "Major" the symbols "I", "IV", "V", "vi" and
    "iii" are not in the degree table, so for a key of [KEYS] and the genres
    "Pop", "Rock", "Classical" or any genre outside the table, every chord
    note of the run is a pitch of the tonic triad
    [tonic, tonic + 3, tonic + 7]: the progression is played as one chord. *)
Theorem generate_music_minor_plays_tonic_only (genre key mode emotion : string)
    (generations : Z) (g : RNG) :
  key ∈ KEYS →
  mode ≠ "Major" →
  GENRE_PROGRESSIONS !! genre = None ∨ genre ∈ ["Pop"; "Rock"; "Classical"] →
  ∃ tonic out plot tempo g',
    PrettyMidi.note_name_to_number (key +:+ "4") = Ok tonic ∧
    generate_music genre key mode emotion generations g
      = Ok (mkMIDI tempo [mkInstrument 0 out], plot, tempo, g') ∧
    Forall (λ n, velocity n = 70 → pitch n ∈ [tonic; tonic + 3; tonic + 7]) out.
Proof.
  intros Hkey Hmode Hgenre.
  destruct (KEYS_note_number key Hkey) as (i & _ & Hi & Hnum).
  destruct (generate_music_run genre key mode emotion generations g Hkey)
    as (prog & scale_notes & seed & out & plot & last_melody
        & Hprog & _ & _ & Hrun & Hem).
  exists (60 + Z.of_nat i), out, plot, (emotion_tempo emotion). eexists.
  split; [done |]. split; [exact Hrun |].
  assert (Hunknown : Forall (λ c, scale_degrees_minor !! c = None) prog).
  { destruct Hgenre as [Hnone | Hin].
    - rewrite (chord_prog_of_unknown genre Hnone) in Hprog. injection Hprog as <-.
      repeat constructor.
    - repeat (apply elem_of_cons in Hin as [-> | Hin]);
        [| | | by apply elem_of_nil in Hin];
        vm_compute in Hprog; injection Hprog as <-; repeat constructor. }
  assert (Hall : Forall (λ n, (velocity n = 70
                               ∧ pitch n ∈ [60 + Z.of_nat i; 60 + Z.of_nat i + 3;
                                            60 + Z.of_nat i + 7])
                              ∨ (velocity n = 100 ∧ pitch n ∈ scale_notes ∧ True)) out).
  { apply (emitted_pitches key mode scale_notes
             (λ p, p ∈ [60 + Z.of_nat i; 60 + Z.of_nat i + 3; 60 + Z.of_nat i + 7])
             (λ _, True) _ _ _ _ _ _ _ Hem); [| done].
    apply Forall_concat, Forall_replicate.
    eapply Forall_impl; [exact Hunknown |]. simpl. intros c Hc triad Ht.
    rewrite (chord_to_notes_value c key mode _ Hnum) in Ht. injection Ht as <-.
    unfold chord_scale, chord_intervals. rewrite bool_decide_false by done.
    rewrite Hc. simpl. rewrite Z.add_0_r, Z.mod_small by lia.
    rewrite Z.add_0_r. repeat constructor; set_solver. }
  eapply Forall_impl; [exact Hall |]. simpl.
  intros n [(_ & Hp) | (Hv & _)] Hv70; [done | congruence].
Qed.

Lemma generate_music_minor_plays_tonic_only_witness :
  ∃ tonic out plot tempo g',
    PrettyMidi.note_name_to_number ("A" +:+ "4") = Ok tonic ∧
    generate_music "Pop" "A" "Minor" "Sad" 2 g0
      = Ok (mkMIDI tempo [mkInstrument 0 out], plot, tempo, g') ∧
    Forall (λ n, velocity n = 70 → pitch n ∈ [tonic; tonic + 3; tonic + 7]) out.
Proof.
  apply generate_music_minor_plays_tonic_only;
    [unfold KEYS; set_solver | done | right; set_solver].
Defined.

(** *** The melody of a whole run *)

Lemma chained_app {A} (R : A → A → Prop) (p : A) (l1 l2 : list A) :
  chained R p l1 → chained R (default p (last l1)) l2 → chained R p (l1 ++ l2).
Proof.
  revert p. induction l1 as [| q l1 IH]; intros p; simpl; [done |].
  intros (Hq & Hl1) Hl2. split; [done |]. apply IH; [done |].
  destruct l1 as [| q' l1]; [done |]. rewrite last_cons_cons in Hl2.
  destruct (last (q' :: l1)) as [z |] eqn:Hz; [done |]. by apply last_None in Hz.
Qed.

Lemma melody_pitches_block (t : float) (triad mel : list Z) (cn mn rest : list Note) :
  chord_part t triad cn → melody_part t mel mn →
  map pitch (filter (λ n, velocity n = 100) (cn ++ mn ++ rest))
    = mel ++ map pitch (filter (λ n, velocity n = 100) rest).
Proof.
  intros Hcn Hmn.
  pose proof (chord_part_velocity _ _ _ Hcn) as Hv70.
  pose proof (melody_part_velocity _ _ _ Hmn) as Hv100.
  destruct Hmn as (_ & Hp & _).
  rewrite !filter_app, (filter_velocity_none 100 70 cn), (filter_velocity_all 100 mn)
    by done.
  simpl. by rewrite map_app, Hp.
Qed.

Lemma emitted_melody_chain (i : nat) key mode t prev g chords out prev' g' (p : Z) :
  let scale_notes := map (λ x, 60 + Z.of_nat i + x) (mode_intervals mode) in
  emitted key mode scale_notes t prev g chords out prev' g' →
  last prev = Some p →
  p ∈ scale_notes →
  chained (λ a b, -4 ≤ b - a ≤ 4) p (map pitch (filter (λ n, velocity n = 100) out)).
Proof.
  intros scale_notes Hem. revert p.
  induction Hem as [| t prev g chord chords triad mel g1 cn mn rest prev' g'
                      _ Hev Hcn Hmn _ IH]; intros p Hlast Hp; [done |].
  rewrite (melody_pitches_block t triad mel cn mn rest Hcn Hmn).
  pose proof (scale_walk_semitones i mode prev mel p 4 g g1 Hlast Hp Hev) as Hch.
  pose proof (evolve_melody_in_scale _ _ _ _ _ _ Hev) as Hin.
  apply chained_app; [exact Hch |].
  destruct (last mel) as [q |] eqn:Hq; simpl.
  - apply IH; [done |]. rewrite Forall_forall in Hin. apply Hin.
    rewrite last_lookup in Hq. by eapply list_elem_of_lookup_2.
  - apply last_None in Hq. subst mel.
    destruct Hmn as (Hlen & Hpitch & _). destruct mn; [done |]. done.
Qed.

(** X16. For a key of [KEYS], the melody of a whole run (its notes of
    velocity 100, in order) is one continuous walk from the seed pitch: from
    one melody note to the next, also across two chords and across two
    generations, the pitch changes by at most 4 semitones. *)
Theorem generate_music_melody_is_one_walk (genre key mode emotion : string)
    (generations : Z) (g : RNG) :
  key ∈ KEYS →
  ∃ scale_notes seed out plot tempo g',
    make_scale key mode = Ok scale_notes ∧
    random_choice scale_notes g = Ok (seed, advance g) ∧
    generate_music genre key mode emotion generations g
      = Ok (mkMIDI tempo [mkInstrument 0 out], plot, tempo, g') ∧
    chained (λ a b, -4 ≤ b - a ≤ 4) seed
            (map pitch (filter (λ n, velocity n = 100) out)).
Proof.
  intros Hkey.
  destruct (generate_music_run genre key mode emotion generations g Hkey)
    as (prog & scale_notes & seed & out & plot & last_melody
        & Hprog & Hscale & Hseed & Hrun & Hem).
  exists scale_notes, seed, out, plot, (emotion_tempo emotion). eexists.
  split; [done |]. split; [done |]. split; [exact Hrun |].
  destruct (make_scale_unwrapped key mode Hkey) as (i & _ & _ & Hs).
  rewrite Hs in Hscale. injection Hscale as <-.
  eapply (emitted_melody_chain i); [exact Hem | done |].
  destruct (random_choice_ok (map (λ x, 60 + Z.of_nat i + x) (mode_intervals mode)) g)
    as (x & Hx & Hin).
  { intros Heq. apply (f_equal length) in Heq.
    rewrite length_map, mode_intervals_length in Heq. done. }
  congruence.
Qed.

Lemma generate_music_melody_is_one_walk_witness :
  ∃ scale_notes seed out plot tempo g',
    make_scale "G" "Major" = Ok scale_notes ∧
    random_choice scale_notes g0 = Ok (seed, advance g0) ∧
    generate_music "Rock" "G" "Major" "Excited" 3 g0
      = Ok (mkMIDI tempo [mkInstrument 0 out], plot, tempo, g') ∧
    chained (λ a b, -4 ≤ b - a ≤ 4) seed
            (map pitch (filter (λ n, velocity n = 100) out)).
Proof. apply generate_music_melody_is_one_walk. unfold KEYS. set_solver. Defined.

(** *** One more generation *)

Lemma concat_replicate_snoc {A} (n : nat) (l : list A) :
  concat (replicate (S n) l) = concat (replicate n l) ++ l.
Proof. by rewrite replicate_S_end, concat_app, (concat_cons l []), !app_nil_r. Qed.

(** X17. For a key of [KEYS] and [generations >= 0], the same call with one
    more generation, from the same state of the random source, returns the
    same notes and plot points followed by those of one more pass over the
    progression (7 notes and 4 plot points per chord): earlier generations
    do not depend on how many follow. *)
Theorem generate_music_one_more_generation (genre key mode emotion : string)
    (generations : Z) (g : RNG) :
  key ∈ KEYS →
  0 ≤ generations →
  ∃ prog out plot more more_plot tempo g1 g2,
    chord_prog_of genre = Ok prog ∧
    generate_music genre key mode emotion generations g
      = Ok (mkMIDI tempo [mkInstrument 0 out], plot, tempo, g1) ∧
    generate_music genre key mode emotion (generations + 1) g
      = Ok (mkMIDI tempo [mkInstrument 0 (out ++ more)], plot ++ more_plot, tempo, g2) ∧
    length more = (7 * length prog)%nat ∧
    length more_plot = (4 * length prog)%nat.
Proof.
  intros Hkey Hgen.
  destruct (KEYS_note_number key Hkey) as (i & _ & _ & Hnum).
  destruct (chord_prog_of_ok genre) as (prog & Hprog).
  pose proof (make_scale_value key mode _ Hnum) as Hscale.
  set (scale_notes := map (λ x, (60 + Z.of_nat i + x) mod 128) (mode_intervals mode)) in *.
  assert (Hne : scale_notes ≠ []).
  { intros Heq. apply (f_equal length) in Heq. unfold scale_notes in Heq.
    rewrite length_map, mode_intervals_length in Heq. done. }
  destruct (random_choice_ok scale_notes g Hne) as (seed & Hseed & _).
  set (st0 := {| time := 0%float; melody := [seed]; inst_notes := []; notes_plot := [] |}).
  set (n := range_len generations).
  assert (Hn1 : range_len (generations + 1) = S n) by (unfold n, range_len; lia).
  destruct (for_each_emitted key mode scale_notes _ Hnum Hne
              (concat (replicate n prog)) st0 (advance g))
    as (st1 & out & Hrun1 & Hnotes1 & Hmel1 & _); [done |].
  set (h1 := mkRNG (tape (advance g)) (pos (advance g) + 4 * length (concat (replicate n prog)))) in *.
  destruct (for_each_emitted key mode scale_notes _ Hnum Hne prog st1 h1 Hmel1)
    as (st2 & more & Hrun2 & Hnotes2 & _ & Hem2).
  assert (Hplot1 : notes_plot st1 = melody_points (inst_notes st1)).
  { eapply (for_each_inv (chord_body key mode scale_notes) (λ st, notes_plot st = melody_points (inst_notes st)));
      [| exact Hrun1 | reflexivity].
    intros st x h st' h'. apply chord_body_plot. }
  assert (Hplot2 : notes_plot st2 = melody_points (inst_notes st2)).
  { eapply (for_each_inv (chord_body key mode scale_notes) (λ st, notes_plot st = melody_points (inst_notes st)));
      [| exact Hrun2 | exact Hplot1].
    intros st x h st' h'. apply chord_body_plot. }
  simpl in Hnotes1. rewrite Hnotes1 in Hnotes2, Hplot1. rewrite Hnotes2 in Hplot2.
  rewrite melody_points_app in Hplot2.
  exists prog, out, (notes_plot st1), more, (melody_points more), (emotion_tempo emotion).
  do 2 eexists. split; [done |]. split; [| split; [| split]].
  - unfold generate_music, compose. unfold_M. rewrite Hscale, Hprog, Hseed.
    fold st0. rewrite for_range_for_each. fold n. rewrite Hrun1.
    by rewrite Hnotes1.
  - unfold generate_music, compose. unfold_M. rewrite Hscale, Hprog, Hseed.
    fold st0. rewrite for_range_for_each, Hn1, concat_replicate_snoc, for_each_app.
    unfold_M. fold n. rewrite Hrun1. fold h1. rewrite Hrun2.
    by rewrite Hnotes2, Hplot2, Hplot1.
  - by rewrite (emitted_length _ _ _ _ _ _ _ _ _ _ Hem2).
  - unfold melody_points. rewrite length_map.
    by destruct (emitted_velocity_counts _ _ _ _ _ _ _ _ _ _ Hem2).
Qed.

Lemma generate_music_one_more_generation_witness :
  ∃ prog out plot more more_plot tempo g1 g2,
    chord_prog_of "Pop" = Ok prog ∧
    generate_music "Pop" "C" "Major" "Happy" 2 g0
      = Ok (mkMIDI tempo [mkInstrument 0 out], plot, tempo, g1) ∧
    generate_music "Pop" "C" "Major" "Happy" (2 + 1) g0
      = Ok (mkMIDI tempo [mkInstrument 0 (out ++ more)], plot ++ more_plot, tempo, g2) ∧
    length more = (7 * length prog)%nat ∧
    length more_plot = (4 * length prog)%nat.
Proof.
  apply generate_music_one_more_generation; [unfold KEYS; set_solver | lia].
Defined.

(** ** What the form can submit *)

(** Every progression the driver can select, fallback included, has four
    chords: the six-chord variant of "Classical" is never the first. *)
Lemma chord_prog_of_length (genre : string) (prog : list string) :
  chord_prog_of genre = Ok prog → length prog = 4%nat.
Proof.
  intros Hprog.
  destruct (GENRE_PROGRESSIONS !! genre) as [variants |] eqn:Hg.
  - pose proof Hg as Hin. apply elem_of_list_to_map_2 in Hin.
    repeat (apply elem_of_cons in Hin as [[= -> ->] | Hin]);
      [| | | | by apply elem_of_nil in Hin];
      vm_compute in Hprog; by injection Hprog as <-.
  - rewrite (chord_prog_of_unknown genre Hg) in Hprog. by injection Hprog as <-.
Qed.

(** X18. For every input the form lets through (a key of [KEYS], an
    emotion of [EMOTIONS], 1 to 12 generations; the genre and the mode may
    be any string), [generate_music] raises nothing, the tempo is one of
    120, 70, 90 and 140, and the piece has exactly [28 * generations] notes
    (28 to 336), four chords per generation, whatever the genre. *)
Theorem generate_music_from_the_form (genre key mode emotion : string)
    (generations : Z) (g : RNG) :
  key ∈ KEYS →
  emotion ∈ EMOTIONS →
  1 ≤ generations ≤ 12 →
  ∃ out plot tempo g',
    generate_music genre key mode emotion generations g
      = Ok (mkMIDI tempo [mkInstrument 0 out], plot, tempo, g') ∧
    tempo ∈ [120; 70; 90; 140] ∧
    Z.of_nat (length out) = 28 * generations ∧
    28 ≤ Z.of_nat (length out) ≤ 336.
Proof.
  intros Hkey Hemotion Hgen.
  destruct (generate_music_run genre key mode emotion generations g Hkey)
    as (prog & scale_notes & seed & out & plot & last_melody
        & Hprog & _ & _ & Hrun & Hem).
  exists out, plot, (emotion_tempo emotion). eexists.
  split; [exact Hrun |].
  assert (Hlen : Z.of_nat (length out) = 28 * generations).
  { rewrite (emitted_length _ _ _ _ _ _ _ _ _ _ Hem), length_concat_replicate.
    rewrite (chord_prog_of_length genre prog Hprog). unfold range_len. lia. }
  split; [| split; [exact Hlen | lia]].
  unfold EMOTIONS in Hemotion.
  repeat (apply elem_of_cons in Hemotion as [-> | Hemotion]);
    [| | | | by apply elem_of_nil in Hemotion];
    vm_compute emotion_tempo; compute_done.
Qed.

Lemma generate_music_from_the_form_witness :
  ∃ out plot tempo g',
    generate_music "Classical" "F#" "Minor" "Mysterious" 12 g0
      = Ok (mkMIDI tempo [mkInstrument 0 out], plot, tempo, g') ∧
    tempo ∈ [120; 70; 90; 140] ∧
    Z.of_nat (length out) = 28 * 12 ∧
    28 ≤ Z.of_nat (length out) ≤ 336.
Proof.
  apply generate_music_from_the_form;
    [unfold KEYS; set_solver | unfold EMOTIONS; set_solver | lia].
Defined.
